(** * The rich-text post editor (TextEditor.tsx) over the Slate engine

    The editor component is glue code over three external libraries:
    Slate (document tree, selection, transforms), React (rendering) and
    is-hotkey (keyboard shortcuts).  The functions of the component are
    embedded here as they are written; the engine they call is an
    interface ([Slate]), and what the component relies on from the engine
    is stated as named contract clauses.  A small reference engine
    ([Ref]) implements the interface on real trees, so that every
    contract clause is inhabited and the component can be run. *)

From Stdlib Require Import Ascii.
From stdpp Require Import base strings gmap list option.

Local Open Scope string_scope.
Local Open Scope list_scope.

(** ** Data model *)

(** Modelled from the spec: the node types of the editor, declared in
    [../../slate] (not among the sources).  A text run is a string payload
    plus independent boolean flags.  The component reads the flags by a
    dynamic key ([marks[format]]), so they are a finite map from the key to
    its value; a key is absent ([undefined]), [true] or [false]. *)
Record SlateText := mkText {
  text : string;
  leaf_marks : gmap string bool
}.

(** Modelled from the spec: a block node of [../../slate], with its [type],
    its optional [align] ([None] is [undefined]) and its ordered children,
    nested blocks or text runs.  Types and alignments are the strings the
    component compares them with. *)
Record SlateElement (C : Type) := mkElement {
  type : string;
  align : option string;
  children : list C
}.
Arguments mkElement {C} _ _ _.
Arguments type {C} _.
Arguments align {C} _.
Arguments children {C} _.

#[warnings="-register-all"]
Inductive Descendant :=
| DElement (el : SlateElement Descendant)
| DText (t : SlateText).

Abbreviation Element' := (SlateElement Descendant).

(** What a [match] callback of the engine receives: the editor itself (the
    root of the tree), an element or a text. *)
Inductive Node :=
| NEditor
| NElement (el : Element')
| NText (t : SlateText).

Definition Path := list nat.
Definition NodeEntry : Type := Node * Path.

Definition Editor_isEditor (n : Node) : bool :=
  match n with NEditor => true | _ => false end.

Definition SlateElement_isElement (n : Node) : bool :=
  match n with NElement _ => true | _ => false end.

(** [el[key]] for the keys whose value is a string; [children] is an array
    and every other key is [undefined], so neither is ever [===] to a
    string. *)
Definition Element_get (el : Element') (key : string) : option string :=
  if bool_decide (key = "type") then Some (type el)
  else if bool_decide (key = "align") then align el
  else None.

(** [n[key] === format], for a string [format]. *)
Definition Node_prop_is (n : Node) (key format : string) : bool :=
  match n with
  | NElement el => bool_decide (Element_get el key = Some format)
  | NText t => bool_decide (key = "text" ∧ text t = format)
  | NEditor => false
  end.

(** [Partial<SlateElement>] as [toggleBlock] builds it: a key is absent
    ([None]) or present; a present [align] may hold [undefined]. *)
Record Partial_SlateElement := mkPartial {
  p_type : option string;
  p_align : option (option string)
}.

(** ** The format registry *)

Definition HOTKEYS : list (string * string) :=
  [ ("mod+b", "bold"); ("mod+i", "italic"); ("mod+u", "underline");
    ("mod+`", "code") ].

Definition LIST_TYPES : list string := ["numbered-list"; "bulleted-list"].

Definition TEXT_ALIGN_TYPES : list string :=
  ["left"; "center"; "right"; "justify"].

Definition formatDirectory : gmap string string :=
  list_to_map
    [ ("start", "start"); ("end", "end"); ("left", "left");
      ("right", "right"); ("center", "center"); ("justify", "justify") ].

(** [xs.includes(x)] *)
Definition includes (xs : list string) (x : string) : bool :=
  bool_decide (x ∈ xs).

(** ** The engine interface

    The part of Slate's [Editor] and [Transforms] the component calls.  The
    engine mutates the editor object; here every mutating call returns the
    editor after the call. *)
Class Slate (E : Type) := {
  Range : Type;
  (** [editor.selection], [None] for [null] *)
  selection : E → option Range;
  Editor_unhangRange : E → Range → Range;
  (** [Editor.nodes(editor, {at, match})], as an array *)
  Editor_nodes : E → Range → (Node → bool) → list NodeEntry;
  (** [Editor.marks(editor)], [None] for [null] *)
  Editor_marks : E → option (gmap string bool);
  Editor_addMark : E → string → bool → E;
  Editor_removeMark : E → string → E;
  (** [Transforms.unwrapNodes(editor, {match, split})] *)
  Transforms_unwrapNodes : E → (Node → bool) → bool → E;
  (** [Transforms.setNodes(editor, props)] *)
  Transforms_setNodes : E → Partial_SlateElement → E;
  (** [Transforms.wrapNodes(editor, block)] *)
  Transforms_wrapNodes : E → Element' → E
}.

(** ** The component *)

Section Component.
Context {E : Type} `{Slate E}.

Definition isMarkActive (editor : E) (format : string) : bool :=
  match Editor_marks editor with
  | Some marks => bool_decide (marks !! format = Some true)
  | None => false
  end.

Definition toggleMark (editor : E) (format : string) : E :=
  let isActive := isMarkActive editor format in
  if isActive then Editor_removeMark editor format
  else Editor_addMark editor format true.

Definition isBlockActive (editor : E) (format blockType : string) : bool :=
  match selection editor with
  | None => false
  | Some sel =>
      let matches :=
        Editor_nodes editor (Editor_unhangRange editor sel)
          (λ n, negb (Editor_isEditor n) && SlateElement_isElement n
                && Node_prop_is n blockType format) in
      match head matches with
      | Some _ => true
      | None => false
      end
  end.

(** The [match] callback [toggleBlock] hands to [unwrapNodes]. *)
Definition unwrap_match (format : string) (n : Node) : bool :=
  negb (Editor_isEditor n) && SlateElement_isElement n
  && match n with
     | NElement el => includes LIST_TYPES (type el)
     | _ => false
     end
  && negb (includes TEXT_ALIGN_TYPES format).

Definition toggleBlock (editor : E) (format : string) : E :=
  let isActive :=
    isBlockActive editor format
      (if includes TEXT_ALIGN_TYPES format then "align" else "type") in
  let isList := includes LIST_TYPES format in
  let editor := Transforms_unwrapNodes editor (unwrap_match format) true in
  let newProperties :=
    if includes TEXT_ALIGN_TYPES format then
      {| p_type := None;
         p_align := Some (if isActive then Some "left"
                          else formatDirectory !! format) |}
    else
      {| p_type := Some (if isActive then "paragraph"
                         else if isList then "list-item" else format);
         p_align := None |} in
  let editor := Transforms_setNodes editor newProperties in
  if negb isActive && isList then
    Transforms_wrapNodes editor (mkElement format None [])
  else editor.

(** The mark [k] of the selection: [Editor.marks(editor)[k]], absent when
    there are no marks at all. *)
Definition markOf (editor : E) (k : string) : option bool :=
  Editor_marks editor ≫= (λ marks, marks !! k).
End Component.

(** ** Keyboard shortcuts *)

(** The fields of a DOM keyboard event a shortcut is compared with. *)
Record KeyboardEvent := mkKey {
  which : N;
  altKey : bool;
  ctrlKey : bool;
  metaKey : bool;
  shiftKey : bool
}.

Section Handler.
Context {E : Type} `{Slate E}.
(** [isHotkey(hotkey, event)] of the is-hotkey package. *)
Variable isHotkey : string → KeyboardEvent → bool.

(** The [onKeyDown] handler: the editor after the handler, and whether
    [event.preventDefault()] was called. *)
Definition onKeyDown (editor : E) (event : KeyboardEvent) : E * bool :=
  foldl (λ (st : E * bool) (entry : string * string),
           let (hotkey, mark) := entry in
           if isHotkey hotkey event then (toggleMark st.1 mark, true)
           else st)
        (editor, false) HOTKEYS.
End Handler.

(** ** Toolbar buttons *)

(** What a toolbar button hands to [Button]: the [active] flag, the icon,
    and what a press ([onMouseDown]) does: the editor after the press and
    whether [event.preventDefault()] was called. *)
Record ButtonProps (E : Type) := mkButton {
  active : bool;
  onMouseDown : E * bool;
  icon : string
}.
Arguments mkButton {E} _ _ _.
Arguments active {E} _.
Arguments onMouseDown {E} _.
Arguments icon {E} _.

Section Toolbar.
Context {E : Type} `{Slate E}.

Definition BlockButton (format icon' : string) (editor : E) : ButtonProps E :=
  mkButton
    (isBlockActive editor format
       (if includes TEXT_ALIGN_TYPES format then "align" else "type"))
    (toggleBlock editor format, true)
    icon'.

Definition MarkButton (format icon' : string) (editor : E) : ButtonProps E :=
  mkButton (isMarkActive editor format) (toggleMark editor format, true) icon'.
End Toolbar.

(** The buttons [TextEditor] puts on its toolbar, in order. *)
Inductive ToolbarButton :=
| TMark (format icon' : string)
| TBlock (format icon' : string).

Definition Toolbar : list ToolbarButton :=
  [ TMark "bold" "format_bold";
    TMark "italic" "format_italic";
    TMark "underline" "format_underlined";
    TMark "code" "code";
    TBlock "heading-one" "looks_one";
    TBlock "heading-two" "looks_two";
    TBlock "block-quote" "format_quote";
    TBlock "numbered-list" "format_list_numbered";
    TBlock "bulleted-list" "format_list_bulleted";
    TBlock "left" "format_align_left";
    TBlock "center" "format_align_center";
    TBlock "right" "format_align_right";
    TBlock "justify" "format_align_justify" ].

(** ** Rendering *)

Inductive Tag :=
| blockquote | ul | h1 | h2 | li | ol | p
| span | strong | code | em | u | CodeBackground.

Record CSSProperties := mkStyle { textAlign : option string }.

Definition Attributes := list (string * string).

(** A rendered tree: what was passed in as [props.children], or a tag
    around a rendered tree. *)
Inductive ReactNode :=
| Given (content : string)
| JSX (tag : Tag) (style : option CSSProperties) (attributes : Attributes)
      (child : ReactNode).

(** What a call gives: the value it returns, or the [TypeError] it
    throws. *)
Inductive Outcome (A : Type) :=
| Returned (a : A)
| TypeError.
Arguments Returned {A} _.
Arguments TypeError {A}.

(** The props of the block renderer.  [re_frozen] says whether the node
    object handed in is frozen: the nodes the engine's operations produce
    are, the nodes of [initialValue] are plain objects as long as no
    operation has replaced them. *)
Record RenderElementProps := mkElementProps {
  re_element : Element';
  re_frozen : bool;
  re_attributes : Attributes;
  re_children : ReactNode
}.

Record RenderLeafProps := mkLeafProps {
  rl_leaf : SlateText;
  rl_attributes : Attributes;
  rl_children : ReactNode
}.

(** The block renderer.  It assigns to [element.align], a field of the
    node it was handed, so it returns the node as it is after the call next
    to the rendered tree.  The module is in strict mode: the assignment
    throws on a frozen node, and then nothing is rendered. *)
Definition Element (props : RenderElementProps)
  : Outcome (ReactNode * Element') :=
  let element := re_element props in
  let attributes := re_attributes props in
  let children' := re_children props in
  let assigned :=
    match align element with
    | None =>
        if re_frozen props then TypeError
        else Returned (mkElement (type element) (Some "left") (children element))
    | Some _ => Returned element
    end in
  match assigned with
  | TypeError => TypeError
  | Returned element =>
      let style := mkStyle (align element) in
      let tag :=
        if (type element =? "block-quote")%string then blockquote
        else if (type element =? "bulleted-list")%string then ul
        else if (type element =? "heading-one")%string then h1
        else if (type element =? "heading-two")%string then h2
        else if (type element =? "list-item")%string then li
        else if (type element =? "numbered-list")%string then ol
        else p in
      Returned (JSX tag (Some style) attributes children', element)
  end.

(** [leaf[k]] is truthy *)
Definition leaf_flag (leaf : SlateText) (k : string) : bool :=
  bool_decide (leaf_marks leaf !! k = Some true).

Definition Leaf (props : RenderLeafProps) : ReactNode :=
  let leaf := rl_leaf props in
  let attributes := rl_attributes props in
  let children' := rl_children props in
  let children' :=
    if leaf_flag leaf "bold" then JSX strong None [] children'
    else children' in
  let children' :=
    if leaf_flag leaf "code"
    then JSX CodeBackground None [] (JSX code None [] children')
    else children' in
  let children' :=
    if leaf_flag leaf "italic" then JSX em None [] children'
    else children' in
  let children' :=
    if leaf_flag leaf "underline" then JSX u None [] children'
    else children' in
  JSX span None attributes children'.

(** ** The engine contract

    What the component relies on from the engine, one clause per fact.  The
    clauses are the documented behaviour of the calls: marks are read at the
    selection and [addMark]/[removeMark] change one key of them; a
    transform whose [match] accepts no node changes nothing; [setNodes]
    sets the properties on a block of the selection. *)
Section Contract.
Context (E : Type) `{Slate E}.

(** [Editor.marks] is [null] without a selection. *)
Definition marks_need_selection : Prop :=
  ∀ e : E, selection e = None → Editor_marks e = None.

(** [addMark] does nothing without a selection. *)
Definition addMark_blurred : Prop :=
  ∀ (e : E) k v, selection e = None → Editor_addMark e k v = e.

(** With a selection, the mark added is the mark read back. *)
Definition addMark_sets : Prop :=
  ∀ (e : E) k v,
    is_Some (selection e) → markOf (Editor_addMark e k v) k = Some v.

Definition addMark_frame : Prop :=
  ∀ (e : E) k v k', k ≠ k' → markOf (Editor_addMark e k v) k' = markOf e k'.

(** After [removeMark] the key is absent. *)
Definition removeMark_clears : Prop :=
  ∀ (e : E) k, markOf (Editor_removeMark e k) k = None.

Definition removeMark_frame : Prop :=
  ∀ (e : E) k k', k ≠ k' → markOf (Editor_removeMark e k) k' = markOf e k'.

Definition removeMark_keeps_selection : Prop :=
  ∀ (e : E) k,
    is_Some (selection e) → is_Some (selection (Editor_removeMark e k)).

(** [Editor.nodes] yields, in order, the nodes of the range that [match]
    accepts. *)
Definition nodes_filter : Prop :=
  ∀ (e : E) at' (m : Node → bool),
    Editor_nodes e at' m
    = filter (λ entry : NodeEntry, m entry.1) (Editor_nodes e at' (λ _, true)).

(** A [match] that accepts no node unwraps nothing. *)
Definition unwrap_nothing : Prop :=
  ∀ (e : E) (m : Node → bool) split,
    (∀ n, m n = false) → Transforms_unwrapNodes e m split = e.

(** [el] has the properties [props] sets. *)
Definition has_props (el : Element') (props : Partial_SlateElement) : Prop :=
  (∀ t, p_type props = Some t → type el = t)
  ∧ (∀ a, p_align props = Some a → align el = a).

(** With a selection, [setNodes] keeps the selection and a block in the
    unhung selection carries the new properties. *)
Definition setNodes_visible : Prop :=
  ∀ (e : E) props,
    is_Some (selection e) →
    ∃ sel el path,
      selection (Transforms_setNodes e props) = Some sel
      ∧ (NElement el, path)
          ∈ Editor_nodes (Transforms_setNodes e props)
              (Editor_unhangRange (Transforms_setNodes e props) sel)
              (λ _, true)
      ∧ has_props el props.

(** [unwrapNodes] keeps a selection. *)
Definition unwrapNodes_keeps_selection : Prop :=
  ∀ (e : E) (m : Node → bool) split,
    is_Some (selection e) →
    is_Some (selection (Transforms_unwrapNodes e m split)).

(** [setNodes] keeps a selection. *)
Definition setNodes_keeps_selection : Prop :=
  ∀ (e : E) props,
    is_Some (selection e) → is_Some (selection (Transforms_setNodes e props)).

(** With a selection, [wrapNodes] keeps the selection and the new container
    is among the nodes of the unhung selection. *)
Definition wrapNodes_visible : Prop :=
  ∀ (e : E) block,
    is_Some (selection e) →
    ∃ sel el path,
      selection (Transforms_wrapNodes e block) = Some sel
      ∧ (NElement el, path)
          ∈ Editor_nodes (Transforms_wrapNodes e block)
              (Editor_unhangRange (Transforms_wrapNodes e block) sel)
              (λ _, true)
      ∧ type el = type block ∧ align el = align block.

(** Setting the same properties again changes nothing. *)
Definition setNodes_idempotent : Prop :=
  ∀ (e : E) props,
    Transforms_setNodes (Transforms_setNodes e props) props
    = Transforms_setNodes e props.

(** [addMark] keeps a selection. *)
Definition addMark_keeps_selection : Prop :=
  ∀ (e : E) k v,
    is_Some (selection e) → is_Some (selection (Editor_addMark e k v)).

(** The transforms take the selection as their location and do nothing
    without one. *)
Definition unwrapNodes_blurred : Prop :=
  ∀ (e : E) (m : Node → bool) split,
    selection e = None → Transforms_unwrapNodes e m split = e.

Definition setNodes_blurred : Prop :=
  ∀ (e : E) props, selection e = None → Transforms_setNodes e props = e.

Definition wrapNodes_blurred : Prop :=
  ∀ (e : E) block, selection e = None → Transforms_wrapNodes e block = e.
End Contract.

(** ** The elements of the selection *)

(** The type and the alignment of a block. *)
Definition kind (el : Element') : string * option string := (type el, align el).

(** [p] is the path of a proper ancestor of the node at [q]. *)
Definition above (p q : Path) : bool :=
  (length p <? length q)%nat && bool_decide (take (length p) q = p).

(** [entry] is an element that [m] accepts, with no accepted element below
    it among [entries]: what a transform in its default mode (lowest)
    acts on. *)
Definition lowest_match (m : Node → bool) (entries : list (Element' * Path))
    (entry : Element' * Path) : bool :=
  m (NElement entry.1)
  && forallb (λ other : Element' * Path,
                negb (m (NElement other.1) && above entry.2 other.2)) entries.

(** [entry] has no element below it among [entries].  This editor has no
    inline elements, so these are the blocks that hold the text. *)
Definition lowest_block (entries : list (Element' * Path))
    (entry : Element' * Path) : bool :=
  forallb (λ other : Element' * Path, negb (above entry.2 other.2)) entries.

(** A list container, as [toggleBlock] recognizes one. *)
Definition is_list_container (n : Node) : bool :=
  match n with
  | NElement el => includes LIST_TYPES (type el)
  | _ => false
  end.

Section Outline.
Context {E : Type} `{Slate E}.

(** The elements among the nodes of the unhung selection with their paths,
    in document order; none without a selection. *)
Definition selected_elements (e : E) : list (Element' * Path) :=
  match selection e with
  | None => []
  | Some sel =>
      omap (λ entry : NodeEntry,
              match entry.1 with
              | NElement el => Some (el, entry.2)
              | _ => None
              end)
           (Editor_nodes e (Editor_unhangRange e sel) (λ _, true))
  end.

Definition outline (e : E) : list (string * option string) :=
  (λ entry : Element' * Path, kind entry.1) <$> selected_elements e.
End Outline.

Section TreeContract.
Context (E : Type) `{Slate E}.

(** With a selection, [setNodes] sets the properties on every block of the
    selection. *)
Definition setNodes_blocks : Prop :=
  ∀ (e : E) props entry,
    is_Some (selection e) →
    entry ∈ selected_elements (Transforms_setNodes e props) →
    lowest_block (selected_elements (Transforms_setNodes e props)) entry = true →
    has_props entry.1 props.

(** With a selection, [wrapNodes] puts one new element with the type and
    the alignment of [block] into the tree, around the blocks of the
    selection: the elements of the selection are those above the new
    element, of the same kinds as before, the new element, and below it
    elements that are as they were, the blocks among them. *)
Definition wrapNodes_wraps : Prop :=
  ∀ (e : E) block,
    is_Some (selection e) →
    ∃ outer inner outer' inner' wrapper path,
      selected_elements e = outer ++ inner
      ∧ selected_elements (Transforms_wrapNodes e block)
        = outer' ++ (wrapper, path) :: inner'
      ∧ kind <$> outer'.*1 = kind <$> outer.*1
      ∧ inner'.*1 = inner.*1
      ∧ kind wrapper = kind block
      ∧ inner ≠ []
      ∧ forallb (λ entry : Element' * Path, above path entry.2) inner' = true
      ∧ (∀ entry,
           entry ∈ selected_elements e →
           lowest_block (selected_elements e) entry = true →
           entry ∈ inner).

(** With a selection, [unwrapNodes] takes the lowest elements its [match]
    accepts out of the selection: it lifts what they hold that is selected
    out of them, and they stay around the rest only.  Every other element
    of the selection, an accepted element that encloses another accepted
    one too, stays, with its type and alignment.  This is for a [match] that
    accepts no block that holds the text. *)
Definition unwrapNodes_lowest : Prop :=
  ∀ (e : E) (m : Node → bool) split,
    is_Some (selection e) →
    forallb (λ entry : Element' * Path,
               negb (lowest_block (selected_elements e) entry
                     && m (NElement entry.1)))
            (selected_elements e) = true →
    outline (Transforms_unwrapNodes e m split)
    = kind <$> (filter (λ entry : Element' * Path,
                          lowest_match m (selected_elements e) entry = false)
                       (selected_elements e)).*1.
End TreeContract.

(** [isHotkey] tells registered shortcuts apart: a keystroke matches at
    most one entry of [HOTKEYS]. *)
Definition hotkeys_exclusive (isHotkey : string → KeyboardEvent → bool) : Prop :=
  ∀ event h h',
    h ∈ HOTKEYS.*1 → h' ∈ HOTKEYS.*1 →
    isHotkey h event = true → isHotkey h' event = true → h = h'.

(** ** Observations on rendered trees *)

Definition rendered_tag (r : ReactNode) : option Tag :=
  match r with JSX t _ _ _ => Some t | Given _ => None end.

Definition rendered_align (r : ReactNode) : option string :=
  match r with
  | JSX _ (Some st) _ _ => textAlign st
  | _ => None
  end.

(** The tags around the given content, outermost first, and the content. *)
Fixpoint wrappers (r : ReactNode) : list Tag :=
  match r with
  | Given _ => []
  | JSX t _ _ c => t :: wrappers c
  end.

Fixpoint content (r : ReactNode) : option string :=
  match r with
  | Given s => Some s
  | JSX _ _ _ c => content c
  end.

(** The recognized block types of the renderer. *)
Definition RENDERED_TYPES : list string :=
  [ "block-quote"; "bulleted-list"; "heading-one"; "heading-two";
    "list-item"; "numbered-list" ].

(** ** A reference engine

    A small engine on real trees: the selection is a cursor collapsed in
    the first leaf of one block, kept as a zipper (the block, its ancestors
    innermost first, and the top-level blocks on both sides), so that a
    selection always points into the document.  It follows Slate where the
    component can tell: marks are read from [editor.marks] when set and from
    the leaf under the cursor otherwise; transforms do nothing without a
    selection; [setNodes] sets the properties on the cursor's block;
    [unwrapNodes] lifts the cursor's branch out of the lowest matching
    container, splitting the container around it (the block that holds the
    cursor is not a container); [wrapNodes] puts an empty copy of the block
    around the cursor's block. *)
Module Ref.

Record Frame := mkFrame {
  fr_left : list Descendant;
  fr_type : string;
  fr_align : option string;
  fr_right : list Descendant
}.

Record Cursor := mkCursor {
  cu_block : Element';
  cu_up : list Frame;
  cu_before : list Descendant;
  cu_after : list Descendant
}.

Inductive Document :=
| Blurred (nodes : list Descendant)
| Focused (c : Cursor).

Record Editor := mkEditor {
  document : Document;
  pending : option (gmap string bool)
}.

(** The element a frame stands for, around [child]. *)
Definition close (child : Descendant) (f : Frame) : Element' :=
  mkElement (fr_type f) (fr_align f) (fr_left f ++ child :: fr_right f).

Definition plug (c : Cursor) : list Descendant :=
  cu_before c
  ++ foldl (λ child f, DElement (close child f)) (DElement (cu_block c)) (cu_up c)
  :: cu_after c.

(** [editor.children] *)
Definition editor_children (e : Editor) : list Descendant :=
  match document e with
  | Blurred nodes => nodes
  | Focused c => plug c
  end.

(** The ancestors of [child], innermost first. *)
Fixpoint ancestors (child : Descendant) (up : list Frame) : list Element' :=
  match up with
  | [] => []
  | f :: rest => close child f :: ancestors (DElement (close child f)) rest
  end.

Definition cursor_path (c : Cursor) : Path :=
  length (cu_before c) :: rev (map (λ f, length (fr_left f)) (cu_up c)).

(** The type and the alignment a frame gives its element. *)
Definition frame_kind (f : Frame) : string * option string :=
  (fr_type f, fr_align f).

(** [l] without the first, and without the last, element that [m]
    accepts. *)
Fixpoint drop_first (m : Element' → bool) (l : list Element') : list Element' :=
  match l with
  | [] => []
  | x :: l' => if m x then l' else x :: drop_first m l'
  end.

Fixpoint drop_last (m : Element' → bool) (l : list Element') : list Element' :=
  match l with
  | [] => []
  | x :: l' =>
      if m x && forallb (λ y, negb (m y)) l' then l'
      else x :: drop_last m l'
  end.

(** The elements on the way to the cursor, from the outermost ancestor to
    the block. *)
Definition chain (c : Cursor) : list Element' :=
  rev (ancestors (DElement (cu_block c)) (cu_up c)) ++ [cu_block c].

(** The nodes a traversal of the cursor's range meets: the editor, the
    ancestors from the outermost in, the block, and the leaf the cursor is
    in when the block starts with one. *)
Definition walk (c : Cursor) : list NodeEntry :=
  let path := cursor_path c in
  (NEditor, [])
  :: imap (λ i el, (NElement el, take (S i) path)) (chain c)
  ++ match children (cu_block c) with
     | DText t :: _ => [(NText t, path ++ [0])]
     | _ => []
     end.

Fixpoint first_leaf (l : list Descendant) : option SlateText :=
  match l with
  | [] => None
  | DText t :: _ => Some t
  | DElement _ :: r => first_leaf r
  end.

Definition cursor_marks (e : Editor) (c : Cursor) : gmap string bool :=
  match pending e with
  | Some marks => marks
  | None =>
      match first_leaf (children (cu_block c)) with
      | Some t => leaf_marks t
      | None => ∅
      end
  end.

Definition marks (e : Editor) : option (gmap string bool) :=
  match document e with
  | Blurred _ => None
  | Focused c => Some (cursor_marks e c)
  end.

Definition addMark (e : Editor) (k : string) (v : bool) : Editor :=
  match document e with
  | Blurred _ => e
  | Focused c => mkEditor (document e) (Some (<[k:=v]> (cursor_marks e c)))
  end.

Definition removeMark (e : Editor) (k : string) : Editor :=
  match document e with
  | Blurred _ => e
  | Focused c => mkEditor (document e) (Some (delete k (cursor_marks e c)))
  end.

Definition apply_props (props : Partial_SlateElement) (el : Element') : Element' :=
  mkElement (default (type el) (p_type props))
            (default (align el) (p_align props))
            (children el).

Definition setNodes (e : Editor) (props : Partial_SlateElement) : Editor :=
  match document e with
  | Blurred _ => e
  | Focused c =>
      mkEditor
        (Focused (mkCursor (apply_props props (cu_block c)) (cu_up c)
                           (cu_before c) (cu_after c)))
        (pending e)
  end.

Definition wrapNodes (e : Editor) (block : Element') : Editor :=
  match document e with
  | Blurred _ => e
  | Focused c =>
      mkEditor
        (Focused (mkCursor (cu_block c)
                           (mkFrame [] (type block) (align block) [] :: cu_up c)
                           (cu_before c) (cu_after c)))
        (pending e)
  end.

(** What stays of one side of an unwrapped container: with [split] the
    siblings stay in a container of their own, without it they are lifted
    too. *)
Definition remainder (split : bool) (f : Frame) (side : list Descendant)
  : list Descendant :=
  if split then
    match side with
    | [] => []
    | _ => [DElement (mkElement (fr_type f) (fr_align f) side)]
    end
  else side.

(** Hand [l] and [r] to the level above: the next frame, or the top
    level. *)
Definition hand_up (l r : list Descendant) (rest : list Frame)
  : list Frame * list Descendant * list Descendant :=
  match rest with
  | [] => ([], l, r)
  | g :: rest' =>
      (mkFrame (fr_left g ++ l) (fr_type g) (fr_align g) (r ++ fr_right g)
         :: rest', [], [])
  end.

(** Remove the lowest frame whose element [m] accepts. *)
Fixpoint unwrap_up (m : Node → bool) (split : bool) (child : Descendant)
    (up : list Frame) : list Frame * list Descendant * list Descendant :=
  match up with
  | [] => ([], [], [])
  | f :: rest =>
      if m (NElement (close child f)) then
        hand_up (remainder split f (fr_left f)) (remainder split f (fr_right f)) rest
      else
        let '(up', l, r) := unwrap_up m split (DElement (close child f)) rest in
        (f :: up', l, r)
  end.

Definition unwrapNodes (e : Editor) (m : Node → bool) (split : bool) : Editor :=
  match document e with
  | Blurred _ => e
  | Focused c =>
      let '(up', l, r) := unwrap_up m split (DElement (cu_block c)) (cu_up c) in
      mkEditor
        (Focused (mkCursor (cu_block c) up' (cu_before c ++ l) (r ++ cu_after c)))
        (pending e)
  end.

#[global] Instance engine : Slate Editor := {
  Range := Cursor;
  selection e :=
    match document e with Blurred _ => None | Focused c => Some c end;
  Editor_unhangRange _ r := r;
  Editor_nodes _ at' m := filter (λ entry : NodeEntry, m entry.1) (walk at');
  Editor_marks := marks;
  Editor_addMark := addMark;
  Editor_removeMark := removeMark;
  Transforms_unwrapNodes := unwrapNodes;
  Transforms_setNodes := setNodes;
  Transforms_wrapNodes := wrapNodes
}.

(** A model of is-hotkey on another platform than macOS: a shortcut is
    its modifiers and one key, joined by [+]; an event matches when its
    key code and each of its four modifier flags are the shortcut's. *)
Fixpoint tokens (cur : string) (s : string) : list string :=
  match s with
  | EmptyString => [cur]
  | String c s' =>
      if Ascii.eqb c "+"%char then cur :: tokens "" s'
      else tokens (cur +:+ String c "") s'
  end.

Definition key_code (c : ascii) : N :=
  let n := N_of_ascii c in
  if ((97 <=? n) && (n <=? 122))%N then (n - 32)%N
  else if (n =? 96)%N then 192%N
  else n.

Record Hotkey := mkHotkey {
  hk_which : option N;
  hk_alt : bool;
  hk_ctrl : bool;
  hk_meta : bool;
  hk_shift : bool
}.

Definition add_token (h : Hotkey) (t : string) : Hotkey :=
  if (t =? "mod")%string || (t =? "ctrl")%string
  then mkHotkey (hk_which h) (hk_alt h) true (hk_meta h) (hk_shift h)
  else if (t =? "alt")%string
  then mkHotkey (hk_which h) true (hk_ctrl h) (hk_meta h) (hk_shift h)
  else if (t =? "meta")%string
  then mkHotkey (hk_which h) (hk_alt h) (hk_ctrl h) true (hk_shift h)
  else if (t =? "shift")%string
  then mkHotkey (hk_which h) (hk_alt h) (hk_ctrl h) (hk_meta h) true
  else match t with
       | String c EmptyString =>
           mkHotkey (Some (key_code c)) (hk_alt h) (hk_ctrl h) (hk_meta h)
                    (hk_shift h)
       | _ => h
       end.

Definition parseHotkey (s : string) : Hotkey :=
  foldl add_token (mkHotkey None false false false false) (tokens "" s).

Definition isHotkey (hotkey : string) (event : KeyboardEvent) : bool :=
  let h := parseHotkey hotkey in
  match hk_which h with
  | Some w =>
      (w =? which event)%N
      && Bool.eqb (hk_alt h) (altKey event)
      && Bool.eqb (hk_ctrl h) (ctrlKey event)
      && Bool.eqb (hk_meta h) (metaKey event)
      && Bool.eqb (hk_shift h) (shiftKey event)
  | None => false
  end.

(** Sample documents. *)
Definition paragraph (s : string) : Element' :=
  mkElement "paragraph" None [DText (mkText s ∅)].

Definition at_paragraph (s : string) : Editor :=
  mkEditor (Focused (mkCursor (paragraph s) [] [] [])) None.

Definition blurred (s : string) : Editor :=
  mkEditor (Blurred [DElement (paragraph s)]) None.

(** A cursor in a paragraph whose only leaf carries [marks]. *)
Definition at_leaf (s : string) (marks : gmap string bool) : Editor :=
  mkEditor
    (Focused (mkCursor (mkElement "paragraph" None [DText (mkText s marks)])
                       [] [] []))
    None.

(** A cursor in the item of a bulleted list that is itself in an item of a
    numbered list. *)
Definition in_nested_list (s : string) : Editor :=
  mkEditor
    (Focused
       (mkCursor (mkElement "list-item" None [DText (mkText s ∅)])
          [ mkFrame [] "bulleted-list" None [];
            mkFrame [] "list-item" None [];
            mkFrame [] "numbered-list" None [] ]
          [] []))
    None.

Definition ctrl_u : KeyboardEvent := mkKey 85 false true false false.
End Ref.

(** * Properties *)

(** ** Marks *)

Section MarkFacts.
Context {E : Type} `{Slate E}.

Lemma isMarkActive_markOf (e : E) f :
  isMarkActive e f = bool_decide (markOf e f = Some true).
Proof.
  unfold isMarkActive, markOf.
  by destruct (Editor_marks e) as [m|].
Qed.

Lemma isMarkActive_true (e : E) f :
  isMarkActive e f = true ↔ markOf e f = Some true.
Proof. rewrite isMarkActive_markOf. apply bool_decide_eq_true. Qed.

Lemma isMarkActive_false (e : E) f :
  isMarkActive e f = false ↔ markOf e f ≠ Some true.
Proof. rewrite isMarkActive_markOf. apply bool_decide_eq_false. Qed.

Lemma isMarkActive_selected (e : E) f :
  marks_need_selection E →
  isMarkActive e f = true → is_Some (selection e).
Proof.
  intros Hsel Hact. destruct (selection e) eqn:Hs; [by eexists|].
  unfold isMarkActive in Hact. by rewrite (Hsel e Hs) in Hact.
Qed.

Lemma toggleMark_active (e : E) f :
  isMarkActive e f = true → toggleMark e f = Editor_removeMark e f.
Proof. unfold toggleMark. by intros ->. Qed.

Lemma toggleMark_inactive (e : E) f :
  isMarkActive e f = false → toggleMark e f = Editor_addMark e f true.
Proof. unfold toggleMark. by intros ->. Qed.

(** Toggling a mark leaves every other mark as it is. *)
Lemma toggleMark_frame (e : E) k k' :
  addMark_frame E → removeMark_frame E →
  k ≠ k' → markOf (toggleMark e k) k' = markOf e k'.
Proof.
  intros Ha Hr Hne. unfold toggleMark.
  destruct (isMarkActive e k); [by apply Hr | by apply Ha].
Qed.

(** With a selection, toggling flips whether the mark is active. *)
Lemma toggleMark_flips (e : E) f :
  addMark_sets E → removeMark_clears E →
  is_Some (selection e) →
  isMarkActive (toggleMark e f) f = negb (isMarkActive e f).
Proof.
  intros Ha Hr Hsel. destruct (isMarkActive e f) eqn:Hact; simpl.
  - rewrite toggleMark_active by done.
    apply isMarkActive_false. by rewrite Hr.
  - rewrite toggleMark_inactive by done.
    apply isMarkActive_true. by apply Ha.
Qed.
End MarkFacts.

(** ** The reference engine keeps the contract *)

Module RefLaws.
Import Ref.

Lemma filter_all {A} (l : list A) : filter (λ _ : A, Is_true true) l = l.
Proof.
  induction l as [|x l IH]; [done|].
  rewrite filter_cons_True by done. by rewrite IH.
Qed.

Lemma marks_need_selection_ref : marks_need_selection Editor.
Proof.
  intros [d pe]. simpl. unfold marks. simpl. by destruct d.
Qed.

Lemma addMark_blurred_ref : addMark_blurred Editor.
Proof.
  intros [d pe] k v. simpl. unfold addMark. simpl. by destruct d.
Qed.

Lemma addMark_sets_ref : addMark_sets Editor.
Proof.
  intros [d pe] k v [sel Hsel]. simpl in *. destruct d as [|c]; [done|].
  unfold markOf. simpl. unfold marks, addMark, cursor_marks. simpl.
  apply lookup_insert_eq.
Qed.

Lemma addMark_frame_ref : addMark_frame Editor.
Proof.
  intros [d pe] k v k' Hne. destruct d as [|c]; [done|].
  unfold markOf. simpl. unfold marks, addMark, cursor_marks. simpl.
  by apply lookup_insert_ne.
Qed.

Lemma removeMark_clears_ref : removeMark_clears Editor.
Proof.
  intros [d pe] k. destruct d as [|c]; [done|].
  unfold markOf. simpl. unfold marks, removeMark, cursor_marks. simpl.
  apply lookup_delete_eq.
Qed.

Lemma removeMark_frame_ref : removeMark_frame Editor.
Proof.
  intros [d pe] k k' Hne. destruct d as [|c]; [done|].
  unfold markOf. simpl. unfold marks, removeMark, cursor_marks. simpl.
  by apply lookup_delete_ne.
Qed.

Lemma removeMark_keeps_selection_ref : removeMark_keeps_selection Editor.
Proof.
  intros [d pe] k [sel Hsel]. simpl in *. destruct d as [|c]; [done|].
  unfold removeMark. simpl. by eexists.
Qed.

Lemma nodes_filter_ref : nodes_filter Editor.
Proof. intros e at' m. simpl. by rewrite filter_all. Qed.

Lemma unwrap_up_nothing (m : Node → bool) split child up :
  (∀ n, m n = false) → unwrap_up m split child up = (up, [], []).
Proof.
  intros Hm. revert child.
  induction up as [|f rest IH]; intros child; simpl; [done|].
  by rewrite Hm, IH.
Qed.

Lemma unwrap_nothing_ref : unwrap_nothing Editor.
Proof.
  intros [d pe] m split Hm. simpl. unfold unwrapNodes. simpl.
  destruct d as [|[b up l r]]; [done|]. simpl.
  rewrite unwrap_up_nothing by done. by rewrite app_nil_r.
Qed.

Lemma chain_block (c : Cursor) :
  chain c !! length (cu_up c) = Some (cu_block c).
Proof.
  unfold chain. rewrite lookup_app_r; rewrite length_rev.
  - assert (length (ancestors (DElement (cu_block c)) (cu_up c))
            = length (cu_up c)) as ->.
    { generalize (DElement (cu_block c)).
      induction (cu_up c) as [|f up IH]; intros d; simpl; [done|].
      by rewrite IH. }
    by rewrite Nat.sub_diag.
  - generalize (DElement (cu_block c)).
    induction (cu_up c) as [|f up IH]; intros d; simpl; [done|].
    specialize (IH (DElement (close d f))). lia.
Qed.

Lemma cursor_path_length (c : Cursor) :
  length (cursor_path c) = S (length (cu_up c)).
Proof. unfold cursor_path. simpl. by rewrite length_rev, length_map. Qed.

Lemma walk_block (c : Cursor) :
  (NElement (cu_block c), cursor_path c) ∈ walk c.
Proof.
  unfold walk. apply elem_of_cons. right. apply elem_of_app. left.
  apply list_elem_of_lookup. exists (length (cu_up c)).
  rewrite list_lookup_imap, chain_block. simpl.
  rewrite take_ge; [done|]. by rewrite length_rev, length_map.
Qed.

Lemma setNodes_visible_ref : setNodes_visible Editor.
Proof.
  intros [d pe] props [sel Hsel]. simpl in *. destruct d as [|c]; [done|].
  unfold setNodes. simpl.
  eexists _, _, _. split; [done|]. split.
  - rewrite filter_all. apply walk_block.
  - simpl. unfold apply_props. split; simpl.
    + by intros t ->.
    + by intros a ->.
Qed.

Lemma unwrapNodes_keeps_selection_ref : unwrapNodes_keeps_selection Editor.
Proof.
  intros [d pe] m split [sel Hsel]. simpl in *. destruct d as [|c]; [done|].
  unfold unwrapNodes. simpl.
  destruct (unwrap_up m split (DElement (cu_block c)) (cu_up c)) as [[up l] r].
  by eexists.
Qed.

Lemma setNodes_keeps_selection_ref : setNodes_keeps_selection Editor.
Proof.
  intros [d pe] props [sel Hsel]. simpl in *. destruct d as [|c]; [done|].
  unfold setNodes. simpl. by eexists.
Qed.

(** The parent of the cursor's block is met on the way to it. *)
Lemma walk_parent (c : Cursor) (f : Frame) (up : list Frame) :
  cu_up c = f :: up →
  ∃ path, (NElement (close (DElement (cu_block c)) f), path) ∈ walk c.
Proof.
  intros Hup. unfold walk, chain. rewrite Hup. simpl.
  rewrite !imap_app. simpl.
  eexists. apply elem_of_cons. right. apply elem_of_app. left.
  apply elem_of_app. left. apply elem_of_app. right.
  apply elem_of_cons. by left.
Qed.

Lemma wrapNodes_visible_ref : wrapNodes_visible Editor.
Proof.
  intros [d pe] block [sel Hsel]. simpl in *. destruct d as [|c]; [done|].
  unfold wrapNodes. simpl.
  destruct (walk_parent
              (mkCursor (cu_block c)
                 (mkFrame [] (type block) (align block) [] :: cu_up c)
                 (cu_before c) (cu_after c))
              (mkFrame [] (type block) (align block) []) (cu_up c) eq_refl)
    as [path Hin].
  eexists _, _, path. split; [done|]. split.
  - rewrite filter_all. exact Hin.
  - done.
Qed.

Lemma setNodes_idempotent_ref : setNodes_idempotent Editor.
Proof.
  intros [d pe] props. simpl. destruct d as [|c]; [done|].
  unfold setNodes, apply_props. simpl.
  by destruct (p_type props), (p_align props).
Qed.

(** A matching event carries the key code of the shortcut. *)
Lemma isHotkey_which hotkey event :
  isHotkey hotkey event = true →
  hk_which (parseHotkey hotkey) = Some (which event).
Proof.
  unfold isHotkey. destruct (hk_which (parseHotkey hotkey)) as [w|]; [|done].
  rewrite !andb_true_iff. intros [[[[Hw _] _] _] _].
  apply N.eqb_eq in Hw. by subst.
Qed.

Lemma hotkeys_exclusive_ref : hotkeys_exclusive isHotkey.
Proof.
  intros event h h' Hh Hh' H1 H2.
  apply isHotkey_which in H1. apply isHotkey_which in H2.
  simpl in Hh, Hh'.
  repeat (apply elem_of_cons in Hh as [->|Hh]);
    [ | | | | by apply elem_of_nil in Hh ].
  all: repeat (apply elem_of_cons in Hh' as [->|Hh']);
    try (by apply elem_of_nil in Hh'); try done.
  all: vm_compute in H1, H2; congruence.
Qed.
End RefLaws.

(** ** Toggling a mark twice *)

(** C1, as amended.  Applying [toggleMark] twice with the same editor and
    format returns [isMarkActive] for that format to its original value,
    and returns the presence and value of the mark to the original whenever
    the mark was originally absent or [true]. *)
Theorem toggleMark_twice {E : Type} `{Slate E} (e : E) (format : string) :
  marks_need_selection E → addMark_blurred E → addMark_sets E →
  removeMark_clears E → removeMark_keeps_selection E →
  isMarkActive (toggleMark (toggleMark e format) format) format
  = isMarkActive e format
  ∧ (markOf e format ≠ Some false →
     markOf (toggleMark (toggleMark e format) format) format = markOf e format).
Proof.
  intros Hnull Hblur Hadd Hclear Hkeep.
  destruct (isMarkActive e format) eqn:Hact.
  - (* on, off, on again *)
    pose proof (isMarkActive_selected e format Hnull Hact) as Hsel.
    rewrite (toggleMark_active e format Hact).
    assert (isMarkActive (Editor_removeMark e format) format = false) as Hoff.
    { apply isMarkActive_false. by rewrite Hclear. }
    rewrite (toggleMark_inactive _ format Hoff).
    assert (markOf (Editor_addMark (Editor_removeMark e format) format true) format
            = Some true) as Hon by (apply Hadd; by apply Hkeep).
    split.
    + by apply isMarkActive_true.
    + intros _. rewrite Hon. symmetry. by apply isMarkActive_true.
  - rewrite (toggleMark_inactive e format Hact).
    destruct (selection e) as [sel|] eqn:Hsel.
    + (* off, on, off again *)
      assert (markOf (Editor_addMark e format true) format = Some true) as Hon
        by (apply Hadd; by eexists).
      apply isMarkActive_true in Hon.
      rewrite (toggleMark_active _ format Hon).
      split.
      * apply isMarkActive_false. by rewrite Hclear.
      * intros Hnf. rewrite Hclear. apply isMarkActive_false in Hact.
        by destruct (markOf e format) as [[|]|].
    + (* nothing is selected: the editor is left as it is *)
      rewrite (Hblur e format true Hsel).
      rewrite (toggleMark_inactive e format Hact).
      by rewrite (Hblur e format true Hsel).
Qed.

Lemma toggleMark_twice_witness :
  isMarkActive (toggleMark (toggleMark (Ref.at_paragraph "x") "bold") "bold") "bold"
  = isMarkActive (Ref.at_paragraph "x") "bold"
  ∧ (markOf (Ref.at_paragraph "x") "bold" ≠ Some false →
     markOf (toggleMark (toggleMark (Ref.at_paragraph "x") "bold") "bold") "bold"
     = markOf (Ref.at_paragraph "x") "bold").
Proof.
  apply (toggleMark_twice (Ref.at_paragraph "x") "bold").
  - exact RefLaws.marks_need_selection_ref.
  - exact RefLaws.addMark_blurred_ref.
  - exact RefLaws.addMark_sets_ref.
  - exact RefLaws.removeMark_clears_ref.
  - exact RefLaws.removeMark_keeps_selection_ref.
Defined.

(** C1 as stated fails on a run whose mark is present with the value
    [false]: [isMarkActive] is [false] there, so the first toggle sets the
    mark to [true] and the second removes the key. *)
Lemma toggleMark_twice_forgets_false :
  markOf (Ref.at_leaf "x" {["bold" := false]}) "bold" = Some false
  ∧ markOf (toggleMark (toggleMark (Ref.at_leaf "x" {["bold" := false]}) "bold")
                       "bold") "bold"
    = None.
Proof. split; vm_compute; reflexivity. Qed.

(** ** The underline shortcut *)

Section Shortcut.
Context {E : Type} `{Slate E}.
Variable isHotkey : string → KeyboardEvent → bool.
Hypothesis Hexclusive : hotkeys_exclusive isHotkey.

(** A keystroke that matches one registered shortcut toggles the mark of
    that shortcut, once, and prevents the default. *)
Lemma onKeyDown_single (e : E) event hotkey :
  hotkey ∈ HOTKEYS.*1 →
  isHotkey hotkey event = true →
  ∃ mark, (hotkey, mark) ∈ HOTKEYS
          ∧ onKeyDown isHotkey e event = (toggleMark e mark, true).
Proof.
  intros Hin Hmatch.
  assert (∀ h, h ∈ HOTKEYS.*1 → h ≠ hotkey → isHotkey h event = false) as Hother.
  { intros h Hh Hne. destruct (isHotkey h event) eqn:Hm; [|done].
    destruct Hne. by apply (Hexclusive event). }
  unfold onKeyDown. simpl in Hin.
  repeat (apply elem_of_cons in Hin as [->|Hin]);
    [ | | | | by apply elem_of_nil in Hin ].
  - exists "bold". split; [set_solver|]. simpl. rewrite Hmatch. simpl.
    by rewrite !Hother by (done || set_solver).
  - exists "italic". split; [set_solver|]. simpl. rewrite Hmatch. simpl.
    by rewrite !Hother by (done || set_solver).
  - exists "underline". split; [set_solver|]. simpl. rewrite Hmatch. simpl.
    by rewrite !Hother by (done || set_solver).
  - exists "code". split; [set_solver|]. simpl. rewrite Hmatch. simpl.
    by rewrite !Hother by (done || set_solver).
Qed.
End Shortcut.

(** C8.  For every keystroke matching the registered underline shortcut
    ([mod+u]), the handler toggles exactly the underline mark: with a
    current selection, the underline flag of the selection flips, while the
    bold, italic and code flags of the selection are unchanged. *)
Theorem underline_shortcut {E : Type} `{Slate E}
    (isHotkey : string → KeyboardEvent → bool) (e : E) (event : KeyboardEvent) :
  hotkeys_exclusive isHotkey →
  addMark_sets E → addMark_frame E → removeMark_clears E → removeMark_frame E →
  isHotkey "mod+u" event = true →
  is_Some (selection e) →
  onKeyDown isHotkey e event = (toggleMark e "underline", true)
  ∧ isMarkActive (onKeyDown isHotkey e event).1 "underline"
    = negb (isMarkActive e "underline")
  ∧ ∀ k, k ∈ ["bold"; "italic"; "code"] →
         markOf (onKeyDown isHotkey e event).1 k = markOf e k.
Proof.
  intros Hexcl Hadd Haddf Hclear Hclearf Hmatch Hsel.
  destruct (onKeyDown_single isHotkey Hexcl e event "mod+u") as (mark & Hin & Hrun);
    [set_solver | done |].
  assert (mark = "underline") as ->.
  { unfold HOTKEYS in Hin.
    repeat (apply elem_of_cons in Hin as [Heq|Hin]); try congruence.
    by apply elem_of_nil in Hin. }
  rewrite Hrun. simpl. split; [done|]. split.
  - by apply toggleMark_flips.
  - intros k Hk. apply toggleMark_frame; [done..|].
    intros <-.
    repeat (apply elem_of_cons in Hk as [Heq|Hk]); try congruence.
    by apply elem_of_nil in Hk.
Qed.

Lemma underline_shortcut_witness :
  onKeyDown Ref.isHotkey (Ref.at_paragraph "x") Ref.ctrl_u
  = (toggleMark (Ref.at_paragraph "x") "underline", true)
  ∧ isMarkActive (onKeyDown Ref.isHotkey (Ref.at_paragraph "x") Ref.ctrl_u).1
      "underline"
    = negb (isMarkActive (Ref.at_paragraph "x") "underline")
  ∧ ∀ k, k ∈ ["bold"; "italic"; "code"] →
         markOf (onKeyDown Ref.isHotkey (Ref.at_paragraph "x") Ref.ctrl_u).1 k
         = markOf (Ref.at_paragraph "x") k.
Proof.
  apply (underline_shortcut Ref.isHotkey (Ref.at_paragraph "x") Ref.ctrl_u).
  - exact RefLaws.hotkeys_exclusive_ref.
  - exact RefLaws.addMark_sets_ref.
  - exact RefLaws.addMark_frame_ref.
  - exact RefLaws.removeMark_clears_ref.
  - exact RefLaws.removeMark_frame_ref.
  - reflexivity.
  - simpl. by eexists.
Defined.

(** ** Whether a block format is active *)

Section BlockFacts.
Context {E : Type} `{Slate E}.

Lemma head_filter_true {A} (P : A → bool) (l : list A) :
  match head (filter (λ x, Is_true (P x)) l) with
  | Some _ => true
  | None => false
  end = true
  ↔ ∃ x, x ∈ l ∧ P x = true.
Proof.
  induction l as [|y l IH].
  - split; [done|]. intros (x & Hx & _). by apply elem_of_nil in Hx.
  - rewrite filter_cons. destruct (decide (P y)) as [Hy|Hy]; simpl.
    + split; [|done]. intros _. exists y. split; [by left|].
      by apply Is_true_true.
    + rewrite IH. split.
      * intros (x & Hx & HP). exists x. split; [by right|done].
      * intros (x & Hx & HP). apply elem_of_cons in Hx as [->|Hx].
        -- destruct Hy. by apply Is_true_true.
        -- by exists x.
Qed.

(** [isBlockActive] in terms of the nodes of the unhung selection. *)
Lemma isBlockActive_iff (e : E) (format blockType : string) sel :
  nodes_filter E →
  selection e = Some sel →
  isBlockActive e format blockType = true
  ↔ ∃ el path,
      (NElement el, path)
        ∈ Editor_nodes e (Editor_unhangRange e sel) (λ _, true)
      ∧ Element_get el blockType = Some format.
Proof.
  intros Hfilter Hsel. unfold isBlockActive. rewrite Hsel. simpl.
  rewrite Hfilter, head_filter_true. split.
  - intros ([n path] & Hin & Hm). simpl in Hm.
    destruct n as [|el|t]; simpl in Hm; try done.
    exists el, path. split; [done|]. by apply bool_decide_eq_true in Hm.
  - intros (el & path & Hin & Hget). exists (NElement el, path).
    split; [done|]. simpl. by apply bool_decide_eq_true.
Qed.

Lemma isBlockActive_blurred (e : E) (format blockType : string) :
  selection e = None → isBlockActive e format blockType = false.
Proof. unfold isBlockActive. by intros ->. Qed.

Lemma Element_get_cases (el : Element') (key format : string) :
  Element_get el key = Some format
  ↔ (key = "type" ∧ type el = format)
    ∨ (key = "align" ∧ align el = Some format).
Proof.
  unfold Element_get. repeat case_bool_decide; subst; split.
  - intros [= <-]. by left.
  - intros [[_ <-]|[? ?]]; done.
  - intros ->. by right.
  - intros [[? ?]|[_ ?]]; done.
  - done.
  - intros [[? ?]|[? ?]]; done.
Qed.
End BlockFacts.

(** C7.  [isBlockActive(editor, format, attribute)] returns [false]
    whenever the editor has no selection, and otherwise returns [true] iff
    at least one non-editor element node in the unhung selection range has
    its attribute (["type"] or ["align"]) equal to [format].  It is a total
    function: it fails on no input. *)
Theorem isBlockActive_spec {E : Type} `{Slate E} (e : E) (format attribute : string) :
  nodes_filter E →
  match selection e with
  | None => isBlockActive e format attribute = false
  | Some sel =>
      isBlockActive e format attribute = true
      ↔ ∃ el path,
          (NElement el, path)
            ∈ Editor_nodes e (Editor_unhangRange e sel) (λ _, true)
          ∧ ((attribute = "type" ∧ type el = format)
             ∨ (attribute = "align" ∧ align el = Some format))
  end.
Proof.
  intros Hfilter. destruct (selection e) as [sel|] eqn:Hsel.
  - rewrite (isBlockActive_iff e format attribute sel Hfilter Hsel).
    split; intros (el & path & Hin & Hattr); exists el, path; split; try done;
      by apply Element_get_cases.
  - by apply isBlockActive_blurred.
Qed.

Lemma isBlockActive_spec_witness :
  isBlockActive (Ref.blurred "x") "paragraph" "type" = false
  ∧ (isBlockActive (Ref.at_paragraph "x") "paragraph" "type" = true
     ↔ ∃ el path,
         (NElement el, path)
           ∈ Editor_nodes (Ref.at_paragraph "x")
               (Editor_unhangRange (Ref.at_paragraph "x")
                  (Ref.mkCursor (Ref.paragraph "x") [] [] []))
               (λ _, true)
         ∧ (("type" = "type" ∧ type el = "paragraph")
            ∨ ("type" = "align" ∧ align el = Some "paragraph"))).
Proof.
  split.
  - exact (isBlockActive_spec (Ref.blurred "x") "paragraph" "type"
             RefLaws.nodes_filter_ref).
  - exact (isBlockActive_spec (Ref.at_paragraph "x") "paragraph" "type"
             RefLaws.nodes_filter_ref).
Defined.

(** ** Toggling a block format *)

Section ToggleFacts.
Context {E : Type} `{Slate E}.

Lemma list_format_cases (format : string) :
  format ∈ LIST_TYPES ↔ format = "numbered-list" ∨ format = "bulleted-list".
Proof. unfold LIST_TYPES. rewrite !elem_of_cons, elem_of_nil. tauto. Qed.

Lemma align_format_cases (format : string) :
  format ∈ TEXT_ALIGN_TYPES
  ↔ format = "left" ∨ format = "center" ∨ format = "right"
    ∨ format = "justify".
Proof.
  unfold TEXT_ALIGN_TYPES. rewrite !elem_of_cons, elem_of_nil. tauto.
Qed.

Lemma includes_true xs x : includes xs x = true ↔ x ∈ xs.
Proof. apply bool_decide_eq_true. Qed.

Lemma includes_false xs x : includes xs x = false ↔ x ∉ xs.
Proof. apply bool_decide_eq_false. Qed.

(** No format is both a list type and an alignment. *)
Lemma list_format_not_align (format : string) :
  format ∈ LIST_TYPES → includes TEXT_ALIGN_TYPES format = false.
Proof.
  intros Hl. apply includes_false. intros Ha.
  apply list_format_cases in Hl. apply align_format_cases in Ha.
  destruct Hl as [->| ->]; destruct Ha as [?|[?|[?|?]]]; discriminate.
Qed.

(** The registry maps every alignment keyword to itself. *)
Lemma formatDirectory_align (a : string) :
  a ∈ TEXT_ALIGN_TYPES → formatDirectory !! a = Some a.
Proof.
  intros Ha. apply align_format_cases in Ha.
  destruct Ha as [->|[->|[->| ->]]]; reflexivity.
Qed.

Lemma unwrap_match_align (a : string) (n : Node) :
  a ∈ TEXT_ALIGN_TYPES → unwrap_match a n = false.
Proof.
  intros Ha. unfold unwrap_match.
  apply includes_true in Ha. rewrite Ha. simpl. apply andb_false_r.
Qed.

Lemma unwrap_match_list (format : string) (n : Node) :
  format ∉ TEXT_ALIGN_TYPES →
  unwrap_match format n = true ↔ ∃ el, n = NElement el ∧ type el ∈ LIST_TYPES.
Proof.
  intros Hf. apply includes_false in Hf. unfold unwrap_match. rewrite Hf.
  simpl. rewrite andb_true_r. destruct n as [|el|t]; simpl.
  - split; [done|]. by intros (? & ? & _).
  - rewrite includes_true. split.
    + intros Hin. by exists el.
    + by intros (? & [= <-] & Hin).
  - split; [done|]. by intros (? & ? & _).
Qed.

(** For an alignment keyword, [toggleBlock] is one [setNodes] of
    [align]. *)
Lemma toggleBlock_align_eq (e : E) (a : string) :
  unwrap_nothing E →
  a ∈ TEXT_ALIGN_TYPES →
  toggleBlock e a
  = Transforms_setNodes e
      {| p_type := None;
         p_align := Some (if isBlockActive e a "align" then Some "left"
                          else formatDirectory !! a) |}.
Proof.
  intros Hunwrap Ha. unfold toggleBlock.
  rewrite (Hunwrap e (unwrap_match a) true)
    by (intros n; by apply unwrap_match_align).
  pose proof Ha as Ha'. apply includes_true in Ha'. rewrite Ha'.
  assert (includes LIST_TYPES a = false) as ->.
  { destruct (includes LIST_TYPES a) eqn:Hl; [|done].
    apply includes_true, list_format_not_align in Hl. congruence. }
  by rewrite andb_false_r.
Qed.

(** After [setNodes] of an alignment, that alignment is active. *)
Lemma setNodes_align_active (e : E) (v : string) :
  nodes_filter E → setNodes_visible E →
  is_Some (selection e) →
  isBlockActive
    (Transforms_setNodes e {| p_type := None; p_align := Some (Some v) |})
    v "align" = true.
Proof.
  intros Hfilter Hvisible Hsel.
  destruct (Hvisible e {| p_type := None; p_align := Some (Some v) |} Hsel)
    as (sel & el & path & Hsel' & Hin & _ & Halign).
  apply (isBlockActive_iff _ v "align" sel Hfilter Hsel').
  exists el, path. split; [done|].
  apply Element_get_cases. right. split; [done|]. by apply Halign.
Qed.
End ToggleFacts.

(** On the reference engine: a paragraph becomes one list item in one new
    bulleted list, and toggling the list off gives the paragraph back. *)
Example toggleBlock_list_on_tree :
  Ref.editor_children (toggleBlock (Ref.at_paragraph "x") "bulleted-list")
  = [ DElement
        (mkElement "bulleted-list" None
           [ DElement (mkElement "list-item" None [DText (mkText "x" ∅)]) ]) ].
Proof. reflexivity. Qed.

Example toggleBlock_list_off_tree :
  Ref.editor_children
    (toggleBlock (toggleBlock (Ref.at_paragraph "x") "bulleted-list")
       "bulleted-list")
  = [ DElement (Ref.paragraph "x") ].
Proof. reflexivity. Qed.

(** On the reference engine, for every document: turning a list format on
    lifts the block out of the lowest list container, retypes it as a list
    item and puts it alone into one new container of that format. *)
Lemma toggleBlock_list_on_ref (c : Ref.Cursor) pe (format : string) up l r :
  format ∈ LIST_TYPES →
  isBlockActive (Ref.mkEditor (Ref.Focused c) pe) format "type" = false →
  Ref.unwrap_up (unwrap_match format) true (DElement (Ref.cu_block c))
    (Ref.cu_up c) = (up, l, r) →
  toggleBlock (Ref.mkEditor (Ref.Focused c) pe) format
  = Ref.mkEditor
      (Ref.Focused
         (Ref.mkCursor
            (mkElement "list-item" (align (Ref.cu_block c))
               (children (Ref.cu_block c)))
            (Ref.mkFrame [] format None [] :: up)
            (Ref.cu_before c ++ l) (r ++ Ref.cu_after c)))
      pe.
Proof.
  intros Hlist Hoff Hup. unfold toggleBlock.
  rewrite (list_format_not_align format Hlist), Hoff.
  apply includes_true in Hlist. rewrite Hlist. simpl.
  unfold Ref.unwrapNodes. simpl. by rewrite Hup.
Qed.

(** With a selection, turning a list format on makes it active: the new
    container is among the nodes of the selection. *)
Lemma toggleBlock_list_on_active {E : Type} `{Slate E} (e : E) (format : string) :
  nodes_filter E → unwrapNodes_keeps_selection E →
  setNodes_keeps_selection E → wrapNodes_visible E →
  format ∈ LIST_TYPES →
  isBlockActive e format "type" = false →
  is_Some (selection e) →
  isBlockActive (toggleBlock e format) format "type" = true.
Proof.
  intros Hfilter Hunwrap Hset Hwrap Hlist Hoff Hsel. unfold toggleBlock.
  rewrite (list_format_not_align format Hlist), Hoff.
  apply includes_true in Hlist. rewrite Hlist. simpl.
  set (e' := Transforms_setNodes _ _).
  assert (is_Some (selection e')) as Hsel' by (apply Hset; by apply Hunwrap).
  destruct (Hwrap e' (mkElement format None []) Hsel')
    as (sel & el & path & Hs & Hin & Hty & _).
  apply (isBlockActive_iff _ format "type" sel Hfilter Hs).
  exists el, path. split; [done|].
  apply Element_get_cases. left. by split.
Qed.

Example toggleBlock_list_on_active_ref :
  isBlockActive (toggleBlock (Ref.at_paragraph "x") "numbered-list")
    "numbered-list" "type" = true.
Proof.
  apply toggleBlock_list_on_active.
  - exact RefLaws.nodes_filter_ref.
  - exact RefLaws.unwrapNodes_keeps_selection_ref.
  - exact RefLaws.setNodes_keeps_selection_ref.
  - exact RefLaws.wrapNodes_visible_ref.
  - apply elem_of_cons. by left.
  - reflexivity.
  - simpl. by eexists.
Qed.

(** C3.  For every alignment format [a] in left, center, right, justify:
    when [a] was not active, [toggleBlock(editor, a)] sets the [align] of
    the selected blocks to the canonical value looked up from the registry,
    which is [a] itself, after which (with a selection)
    [isBlockActive(editor, a, "align")] is true; when [a] was active, it
    sets [align] to ["left"]. *)
Theorem toggleBlock_align {E : Type} `{Slate E} (e : E) (a : string) :
  nodes_filter E → unwrap_nothing E → setNodes_visible E →
  a ∈ TEXT_ALIGN_TYPES →
  (isBlockActive e a "align" = false →
     toggleBlock e a
     = Transforms_setNodes e
         {| p_type := None; p_align := Some (formatDirectory !! a) |}
     ∧ formatDirectory !! a = Some a
     ∧ (is_Some (selection e) →
        isBlockActive (toggleBlock e a) a "align" = true))
  ∧ (isBlockActive e a "align" = true →
     toggleBlock e a
     = Transforms_setNodes e
         {| p_type := None; p_align := Some (Some "left") |}).
Proof.
  intros Hfilter Hunwrap Hvisible Ha.
  rewrite (toggleBlock_align_eq e a Hunwrap Ha). split; intros ->; [|done].
  split; [done|]. split; [by apply formatDirectory_align|].
  intros Hsel. rewrite (formatDirectory_align a Ha).
  by apply setNodes_align_active.
Qed.

Lemma toggleBlock_align_witness :
  (isBlockActive (Ref.at_paragraph "x") "center" "align" = false →
     toggleBlock (Ref.at_paragraph "x") "center"
     = Transforms_setNodes (Ref.at_paragraph "x")
         {| p_type := None; p_align := Some (formatDirectory !! "center") |}
     ∧ formatDirectory !! "center" = Some "center"
     ∧ (is_Some (selection (Ref.at_paragraph "x")) →
        isBlockActive (toggleBlock (Ref.at_paragraph "x") "center") "center"
          "align" = true))
  ∧ (isBlockActive (Ref.at_paragraph "x") "center" "align" = true →
     toggleBlock (Ref.at_paragraph "x") "center"
     = Transforms_setNodes (Ref.at_paragraph "x")
         {| p_type := None; p_align := Some (Some "left") |}).
Proof.
  apply (toggleBlock_align (Ref.at_paragraph "x") "center").
  - exact RefLaws.nodes_filter_ref.
  - exact RefLaws.unwrap_nothing_ref.
  - exact RefLaws.setNodes_visible_ref.
  - unfold TEXT_ALIGN_TYPES. apply elem_of_cons. right. apply elem_of_cons. by left.
Defined.

(** On the reference engine: centering a paragraph, then centering it
    again, which sets it to left. *)
Example toggleBlock_center_tree :
  Ref.editor_children (toggleBlock (Ref.at_paragraph "x") "center")
  = [ DElement (mkElement "paragraph" (Some "center") [DText (mkText "x" ∅)]) ]
  ∧ Ref.editor_children
      (toggleBlock (toggleBlock (Ref.at_paragraph "x") "center") "center")
    = [ DElement (mkElement "paragraph" (Some "left") [DText (mkText "x" ∅)]) ].
Proof. split; reflexivity. Qed.

(** On the reference engine: a heading requested inside a list takes the
    item out of the list; an alignment requested there leaves the list. *)
Example toggleBlock_heading_in_list_tree :
  Ref.editor_children
    (toggleBlock (toggleBlock (Ref.at_paragraph "x") "bulleted-list")
       "heading-one")
  = [ DElement (mkElement "heading-one" None [DText (mkText "x" ∅)]) ]
  ∧ Ref.editor_children
      (toggleBlock (toggleBlock (Ref.at_paragraph "x") "bulleted-list") "right")
    = [ DElement
          (mkElement "bulleted-list" None
             [ DElement
                 (mkElement "list-item" (Some "right") [DText (mkText "x" ∅)]) ]) ].
Proof. split; reflexivity. Qed.

(** C10.  [toggleBlock] with format ["left"] always sets the [align] of
    the selected blocks to ["left"], whether or not left alignment was
    active: the value for turning off and the registry value of ["left"]
    coincide.  So applying it again changes nothing, and (with a selection)
    left alignment is active afterwards: it can never be switched off. *)
Theorem toggleBlock_left {E : Type} `{Slate E} (e : E) :
  nodes_filter E → unwrap_nothing E → setNodes_visible E →
  setNodes_idempotent E →
  toggleBlock e "left"
  = Transforms_setNodes e {| p_type := None; p_align := Some (Some "left") |}
  ∧ toggleBlock (toggleBlock e "left") "left" = toggleBlock e "left"
  ∧ (is_Some (selection e) →
     isBlockActive (toggleBlock e "left") "left" "align" = true).
Proof.
  intros Hfilter Hunwrap Hvisible Hidem.
  assert ("left" ∈ TEXT_ALIGN_TYPES) as Hleft by (apply elem_of_cons; by left).
  assert (∀ e' : E,
            toggleBlock e' "left"
            = Transforms_setNodes e'
                {| p_type := None; p_align := Some (Some "left") |}) as Heq.
  { intros e'. rewrite (toggleBlock_align_eq e' "left" Hunwrap Hleft).
    by destruct (isBlockActive e' "left" "align"). }
  split; [by apply Heq|]. split.
  - rewrite !Heq. by apply Hidem.
  - intros Hsel. rewrite Heq. by apply setNodes_align_active.
Qed.

Lemma toggleBlock_left_witness :
  toggleBlock (Ref.at_paragraph "x") "left"
  = Transforms_setNodes (Ref.at_paragraph "x")
      {| p_type := None; p_align := Some (Some "left") |}
  ∧ toggleBlock (toggleBlock (Ref.at_paragraph "x") "left") "left"
    = toggleBlock (Ref.at_paragraph "x") "left"
  ∧ (is_Some (selection (Ref.at_paragraph "x")) →
     isBlockActive (toggleBlock (Ref.at_paragraph "x") "left") "left" "align"
     = true).
Proof.
  apply (toggleBlock_left (Ref.at_paragraph "x")).
  - exact RefLaws.nodes_filter_ref.
  - exact RefLaws.unwrap_nothing_ref.
  - exact RefLaws.setNodes_visible_ref.
  - exact RefLaws.setNodes_idempotent_ref.
Defined.

(** C6.  For every text run, the leaf renderer applies the emphasis
    wrappers in the fixed order bold, then code (with its background
    wrapper), then italic, then underline, from innermost to outermost; in
    particular a run with bold and code (and neither italic nor underline)
    renders as a code-background wrapper containing a code element
    containing a bold wrapper containing the text. *)
Theorem Leaf_order (props : RenderLeafProps) :
  wrappers (Leaf props)
  = span
    :: (if leaf_flag (rl_leaf props) "underline" then [u] else [])
    ++ (if leaf_flag (rl_leaf props) "italic" then [em] else [])
    ++ (if leaf_flag (rl_leaf props) "code" then [CodeBackground; code] else [])
    ++ (if leaf_flag (rl_leaf props) "bold" then [strong] else [])
    ++ wrappers (rl_children props)
  ∧ content (Leaf props) = content (rl_children props)
  ∧ (leaf_flag (rl_leaf props) "bold" = true →
     leaf_flag (rl_leaf props) "code" = true →
     leaf_flag (rl_leaf props) "italic" = false →
     leaf_flag (rl_leaf props) "underline" = false →
     Leaf props
     = JSX span None (rl_attributes props)
         (JSX CodeBackground None []
            (JSX code None [] (JSX strong None [] (rl_children props))))).
Proof.
  unfold Leaf. split; [|split].
  - by destruct (leaf_flag _ "bold"), (leaf_flag _ "code"),
         (leaf_flag _ "italic"), (leaf_flag _ "underline").
  - by destruct (leaf_flag _ "bold"), (leaf_flag _ "code"),
         (leaf_flag _ "italic"), (leaf_flag _ "underline").
  - by intros -> -> -> ->.
Qed.

Lemma Leaf_order_witness :
  Leaf (mkLeafProps (mkText "x" {["bold" := true; "code" := true]}) []
          (Given "x"))
  = JSX span None []
      (JSX CodeBackground None []
         (JSX code None [] (JSX strong None [] (Given "x")))).
Proof.
  by apply (Leaf_order
              (mkLeafProps (mkText "x" {["bold" := true; "code" := true]}) []
                 (Given "x"))).
Defined.

(** * Further properties of the component *)

(** ** The reference engine keeps the rest of the contract *)

Module RefMore.
Import Ref.

Lemma addMark_keeps_selection_ref : addMark_keeps_selection Editor.
Proof.
  intros [d pe] k v [sel Hsel]. simpl in *. destruct d as [|c]; [done|].
  unfold addMark. simpl. by eexists.
Qed.

Lemma unwrapNodes_blurred_ref : unwrapNodes_blurred Editor.
Proof.
  intros [d pe] m split Hsel. simpl in *. by destruct d.
Qed.

Lemma setNodes_blurred_ref : setNodes_blurred Editor.
Proof.
  intros [d pe] props Hsel. simpl in *. by destruct d.
Qed.

Lemma wrapNodes_blurred_ref : wrapNodes_blurred Editor.
Proof.
  intros [d pe] block Hsel. simpl in *. by destruct d.
Qed.
End RefMore.

(** ** One toggle of a mark *)

Section ToggleMarkFacts.
Context {E : Type} `{Slate E}.

(** The mark after a toggle, with a selection: gone when it was active,
    [true] when it was not. *)
Lemma toggleMark_result (e : E) f :
  addMark_sets E → removeMark_clears E →
  is_Some (selection e) →
  markOf (toggleMark e f) f = if isMarkActive e f then None else Some true.
Proof.
  intros Hadd Hclear Hsel. unfold toggleMark.
  destruct (isMarkActive e f); [apply Hclear | by apply Hadd].
Qed.

Lemma toggleMark_keeps_selection (e : E) f :
  addMark_keeps_selection E → removeMark_keeps_selection E →
  is_Some (selection e) → is_Some (selection (toggleMark e f)).
Proof.
  intros Hadd Hrem Hsel. unfold toggleMark.
  destruct (isMarkActive e f); [by apply Hrem | by apply Hadd].
Qed.

Lemma toggleMark_nothing_selected (e : E) f :
  marks_need_selection E → addMark_blurred E →
  selection e = None → toggleMark e f = e.
Proof.
  intros Hnull Hblur Hsel. unfold toggleMark, isMarkActive.
  rewrite (Hnull e Hsel). by apply Hblur.
Qed.

Lemma isMarkActive_frame (e : E) k k' :
  addMark_frame E → removeMark_frame E →
  k ≠ k' → isMarkActive (toggleMark e k) k' = isMarkActive e k'.
Proof.
  intros Ha Hr Hne. rewrite !isMarkActive_markOf.
  by rewrite (toggleMark_frame e k k' Ha Hr Hne).
Qed.
End ToggleMarkFacts.

(** X1.  Without a selection [toggleMark] leaves the editor as it is, and
    the mark stays inactive. *)
Theorem toggleMark_blurred {E : Type} `{Slate E} (e : E) (format : string) :
  marks_need_selection E → addMark_blurred E →
  selection e = None →
  toggleMark e format = e ∧ isMarkActive (toggleMark e format) format = false.
Proof.
  intros Hnull Hblur Hsel.
  rewrite (toggleMark_nothing_selected e format Hnull Hblur Hsel).
  split; [done|]. unfold isMarkActive. by rewrite (Hnull e Hsel).
Qed.

Lemma toggleMark_blurred_witness :
  toggleMark (Ref.blurred "x") "bold" = Ref.blurred "x"
  ∧ isMarkActive (toggleMark (Ref.blurred "x") "bold") "bold" = false.
Proof.
  apply (toggleMark_blurred (Ref.blurred "x") "bold").
  - exact RefLaws.marks_need_selection_ref.
  - exact RefLaws.addMark_blurred_ref.
  - reflexivity.
Defined.

(** X2.  With a selection, one [toggleMark] leaves the mark absent or
    [true], never [false]; from then on two more toggles bring the mark
    back exactly. *)
Theorem toggleMark_thrice {E : Type} `{Slate E} (e : E) (format : string) :
  addMark_sets E → removeMark_clears E →
  addMark_keeps_selection E → removeMark_keeps_selection E →
  is_Some (selection e) →
  markOf (toggleMark e format) format ≠ Some false
  ∧ markOf (toggleMark (toggleMark (toggleMark e format) format) format) format
    = markOf (toggleMark e format) format.
Proof.
  intros Hadd Hclear Hka Hkr Hsel.
  pose proof (toggleMark_keeps_selection e format Hka Hkr Hsel) as Hsel1.
  pose proof (toggleMark_keeps_selection _ format Hka Hkr Hsel1) as Hsel2.
  rewrite (toggleMark_result _ format Hadd Hclear Hsel2).
  rewrite !isMarkActive_markOf.
  rewrite (toggleMark_result _ format Hadd Hclear Hsel1).
  rewrite !isMarkActive_markOf.
  rewrite (toggleMark_result e format Hadd Hclear Hsel).
  by destruct (isMarkActive e format).
Qed.

Lemma toggleMark_thrice_witness :
  markOf (toggleMark (Ref.at_leaf "x" {["bold" := false]}) "bold") "bold"
  ≠ Some false
  ∧ markOf (toggleMark (toggleMark (toggleMark
              (Ref.at_leaf "x" {["bold" := false]}) "bold") "bold") "bold") "bold"
    = markOf (toggleMark (Ref.at_leaf "x" {["bold" := false]}) "bold") "bold".
Proof.
  apply (toggleMark_thrice (Ref.at_leaf "x" {["bold" := false]}) "bold").
  - exact RefLaws.addMark_sets_ref.
  - exact RefLaws.removeMark_clears_ref.
  - exact RefMore.addMark_keeps_selection_ref.
  - exact RefLaws.removeMark_keeps_selection_ref.
  - simpl. by eexists.
Defined.

(** X3.  Toggling two different marks gives the same marks in either
    order. *)
Theorem toggleMark_commute {E : Type} `{Slate E} (e : E) (a b k : string) :
  marks_need_selection E → addMark_blurred E →
  addMark_sets E → addMark_frame E → removeMark_clears E → removeMark_frame E →
  addMark_keeps_selection E → removeMark_keeps_selection E →
  a ≠ b →
  markOf (toggleMark (toggleMark e a) b) k
  = markOf (toggleMark (toggleMark e b) a) k.
Proof.
  intros Hnull Hblur Hadd Haf Hclear Hrf Hka Hkr Hab.
  destruct (selection e) as [sel|] eqn:Hsel.
  - assert (is_Some (selection e)) as Hs by (by eexists).
    pose proof (toggleMark_keeps_selection e a Hka Hkr Hs) as Hsa.
    pose proof (toggleMark_keeps_selection e b Hka Hkr Hs) as Hsb.
    destruct (decide (k = a)) as [->|Hka'];
      [|destruct (decide (k = b)) as [->|Hkb']].
    + rewrite (toggleMark_frame (toggleMark e a) b a Haf Hrf) by done.
      rewrite (toggleMark_result e a Hadd Hclear Hs).
      rewrite (toggleMark_result (toggleMark e b) a Hadd Hclear Hsb).
      by rewrite (isMarkActive_frame e b a Haf Hrf) by done.
    + rewrite (toggleMark_frame (toggleMark e b) a b Haf Hrf) by done.
      rewrite (toggleMark_result e b Hadd Hclear Hs).
      rewrite (toggleMark_result (toggleMark e a) b Hadd Hclear Hsa).
      by rewrite (isMarkActive_frame e a b Haf Hrf) by done.
    + rewrite !(toggleMark_frame _ _ k Haf Hrf) by done. done.
  - by rewrite !(toggleMark_nothing_selected e _ Hnull Hblur Hsel).
Qed.

Lemma toggleMark_commute_witness :
  markOf (toggleMark (toggleMark (Ref.at_paragraph "x") "bold") "italic") "bold"
  = markOf (toggleMark (toggleMark (Ref.at_paragraph "x") "italic") "bold") "bold".
Proof.
  apply (toggleMark_commute (Ref.at_paragraph "x") "bold" "italic" "bold").
  - exact RefLaws.marks_need_selection_ref.
  - exact RefLaws.addMark_blurred_ref.
  - exact RefLaws.addMark_sets_ref.
  - exact RefLaws.addMark_frame_ref.
  - exact RefLaws.removeMark_clears_ref.
  - exact RefLaws.removeMark_frame_ref.
  - exact RefMore.addMark_keeps_selection_ref.
  - exact RefLaws.removeMark_keeps_selection_ref.
  - discriminate.
Defined.

(** ** Keystrokes *)

(** X4.  A keystroke that matches no registered shortcut leaves the editor
    as it is and does not prevent the default. *)
Theorem onKeyDown_unmatched {E : Type} `{Slate E}
    (isHotkey : string → KeyboardEvent → bool) (e : E) (event : KeyboardEvent) :
  (∀ hotkey, hotkey ∈ HOTKEYS.*1 → isHotkey hotkey event = false) →
  onKeyDown isHotkey e event = (e, false).
Proof.
  intros Hnone. unfold onKeyDown, HOTKEYS. simpl.
  rewrite !Hnone; [done|..]; simpl; rewrite !elem_of_cons; tauto.
Qed.

Lemma onKeyDown_unmatched_witness :
  onKeyDown Ref.isHotkey (Ref.at_paragraph "x") (mkKey 85 false false false false)
  = (Ref.at_paragraph "x", false).
Proof.
  apply (onKeyDown_unmatched Ref.isHotkey (Ref.at_paragraph "x")
           (mkKey 85 false false false false)).
  intros hotkey Hin. simpl in Hin.
  repeat (apply elem_of_cons in Hin as [->|Hin]); try reflexivity.
  by apply elem_of_nil in Hin.
Defined.

(** X5.  A keystroke that matches a registered shortcut toggles the mark
    registered for it, once, prevents the default, and leaves every other
    mark of the selection as it is. *)
Theorem onKeyDown_registered {E : Type} `{Slate E}
    (isHotkey : string → KeyboardEvent → bool) (e : E) (event : KeyboardEvent)
    (hotkey mark : string) :
  hotkeys_exclusive isHotkey → addMark_frame E → removeMark_frame E →
  (hotkey, mark) ∈ HOTKEYS →
  isHotkey hotkey event = true →
  onKeyDown isHotkey e event = (toggleMark e mark, true)
  ∧ ∀ k, k ≠ mark → markOf (onKeyDown isHotkey e event).1 k = markOf e k.
Proof.
  intros Hexcl Haf Hrf Hin Hmatch.
  assert (hotkey ∈ HOTKEYS.*1) as Hkey.
  { apply list_elem_of_fmap. by exists (hotkey, mark). }
  destruct (onKeyDown_single isHotkey Hexcl e event hotkey Hkey Hmatch)
    as (mark' & Hin' & Hrun).
  assert (mark' = mark) as ->.
  { unfold HOTKEYS in Hin, Hin'.
    repeat (apply elem_of_cons in Hin as [Heq|Hin]);
      try (by apply elem_of_nil in Hin);
      repeat (apply elem_of_cons in Hin' as [Heq'|Hin']);
      try (by apply elem_of_nil in Hin'); congruence. }
  rewrite Hrun. split; [done|].
  intros k Hk. simpl. apply toggleMark_frame; [done..|]. by intros ->.
Qed.

Lemma onKeyDown_registered_witness :
  onKeyDown Ref.isHotkey (Ref.at_paragraph "x") (mkKey 192 false true false false)
  = (toggleMark (Ref.at_paragraph "x") "code", true)
  ∧ ∀ k, k ≠ "code" →
         markOf (onKeyDown Ref.isHotkey (Ref.at_paragraph "x")
                   (mkKey 192 false true false false)).1 k
         = markOf (Ref.at_paragraph "x") k.
Proof.
  apply (onKeyDown_registered Ref.isHotkey (Ref.at_paragraph "x")
           (mkKey 192 false true false false) "mod+`" "code").
  - exact RefLaws.hotkeys_exclusive_ref.
  - exact RefLaws.addMark_frame_ref.
  - exact RefLaws.removeMark_frame_ref.
  - unfold HOTKEYS. rewrite !elem_of_cons. tauto.
  - reflexivity.
Defined.

(** ** Pressing a toolbar button *)

(** X6.  With a selection, pressing a mark button prevents the default and
    flips the active flag the button shows. *)
Theorem MarkButton_press {E : Type} `{Slate E} (e : E) (format icon' : string) :
  addMark_sets E → removeMark_clears E →
  is_Some (selection e) →
  (onMouseDown (MarkButton format icon' e)).2 = true
  ∧ active (MarkButton format icon' (onMouseDown (MarkButton format icon' e)).1)
    = negb (active (MarkButton format icon' e)).
Proof.
  intros Hadd Hclear Hsel. split; [done|]. simpl.
  by apply toggleMark_flips.
Qed.

Lemma MarkButton_press_witness :
  (onMouseDown (MarkButton "bold" "format_bold" (Ref.at_paragraph "x"))).2 = true
  ∧ active (MarkButton "bold" "format_bold"
              (onMouseDown (MarkButton "bold" "format_bold"
                              (Ref.at_paragraph "x"))).1)
    = negb (active (MarkButton "bold" "format_bold" (Ref.at_paragraph "x"))).
Proof.
  apply (MarkButton_press (Ref.at_paragraph "x") "bold" "format_bold").
  - exact RefLaws.addMark_sets_ref.
  - exact RefLaws.removeMark_clears_ref.
  - simpl. by eexists.
Defined.

(** ** One toggle of a block format *)

Section ToggleBlockFacts.
Context {E : Type} `{Slate E}.

(** Turning a format that is not an alignment off: paragraph, and no
    container. *)
Lemma toggleBlock_off_eq (e : E) (format : string) :
  format ∉ TEXT_ALIGN_TYPES →
  isBlockActive e format "type" = true →
  toggleBlock e format
  = Transforms_setNodes
      (Transforms_unwrapNodes e (unwrap_match format) true)
      {| p_type := Some "paragraph"; p_align := None |}.
Proof.
  intros Hf Hon. apply includes_false in Hf. unfold toggleBlock.
  by rewrite Hf, Hon.
Qed.

(** Turning a format on that is neither alignment nor list: the format
    becomes the type, and no container. *)
Lemma toggleBlock_type_on_eq (e : E) (format : string) :
  format ∉ TEXT_ALIGN_TYPES → format ∉ LIST_TYPES →
  isBlockActive e format "type" = false →
  toggleBlock e format
  = Transforms_setNodes
      (Transforms_unwrapNodes e (unwrap_match format) true)
      {| p_type := Some format; p_align := None |}.
Proof.
  intros Hf Hl Hoff. apply includes_false in Hf. apply includes_false in Hl.
  unfold toggleBlock. by rewrite Hf, Hl, Hoff.
Qed.

(** After [setNodes] of a type, that type is active. *)
Lemma setNodes_type_active (e : E) (t : string) :
  nodes_filter E → setNodes_visible E →
  is_Some (selection e) →
  isBlockActive
    (Transforms_setNodes e {| p_type := Some t; p_align := None |})
    t "type" = true.
Proof.
  intros Hfilter Hvisible Hsel.
  destruct (Hvisible e {| p_type := Some t; p_align := None |} Hsel)
    as (sel & el & path & Hsel' & Hin & Hty & _).
  apply (isBlockActive_iff _ t "type" sel Hfilter Hsel').
  exists el, path. split; [done|].
  apply Element_get_cases. left. split; [done|]. by apply Hty.
Qed.

(** With a selection, a format that was not active is active after
    [toggleBlock], whatever the format is. *)
Lemma toggleBlock_activates (e : E) (format : string) :
  nodes_filter E → unwrap_nothing E → unwrapNodes_keeps_selection E →
  setNodes_keeps_selection E → setNodes_visible E → wrapNodes_visible E →
  is_Some (selection e) →
  isBlockActive e format
    (if includes TEXT_ALIGN_TYPES format then "align" else "type") = false →
  isBlockActive (toggleBlock e format) format
    (if includes TEXT_ALIGN_TYPES format then "align" else "type") = true.
Proof.
  intros Hfilter Hnothing Hunwrap Hset Hvisible Hwrap Hsel.
  destruct (includes TEXT_ALIGN_TYPES format) eqn:Ha; intros Hoff.
  - apply includes_true in Ha.
    rewrite (toggleBlock_align_eq e format Hnothing Ha), Hoff.
    rewrite (formatDirectory_align format Ha).
    by apply setNodes_align_active.
  - destruct (includes LIST_TYPES format) eqn:Hl.
    + apply includes_true in Hl. by apply toggleBlock_list_on_active.
    + apply includes_false in Ha. apply includes_false in Hl.
      rewrite (toggleBlock_type_on_eq e format Ha Hl Hoff).
      apply setNodes_type_active; [done..|]. by apply Hunwrap.
Qed.
End ToggleBlockFacts.

(** X8.  Without a selection [toggleBlock] leaves the editor as it is, for
    every format. *)
Theorem toggleBlock_blurred {E : Type} `{Slate E} (e : E) (format : string) :
  unwrapNodes_blurred E → setNodes_blurred E → wrapNodes_blurred E →
  selection e = None →
  toggleBlock e format = e.
Proof.
  intros Hunwrap Hset Hwrap Hsel. unfold toggleBlock.
  rewrite (Hunwrap e _ true Hsel), (Hset e _ Hsel).
  destruct (negb _ && includes LIST_TYPES format); [by apply Hwrap | done].
Qed.

Lemma toggleBlock_blurred_witness :
  toggleBlock (Ref.blurred "x") "numbered-list" = Ref.blurred "x".
Proof.
  apply (toggleBlock_blurred (Ref.blurred "x") "numbered-list").
  - exact RefMore.unwrapNodes_blurred_ref.
  - exact RefMore.setNodes_blurred_ref.
  - exact RefMore.wrapNodes_blurred_ref.
  - reflexivity.
Defined.



(** X10.  With a selection, toggling twice a format that is not an
    alignment and was not active: the second toggle turns it off, it sets
    the type to ["paragraph"] on the editor its own unwrap leaves and adds
    no container, for a list as for any other type. *)
Theorem toggleBlock_type_twice {E : Type} `{Slate E} (e : E) (format : string) :
  nodes_filter E → unwrap_nothing E → unwrapNodes_keeps_selection E →
  setNodes_keeps_selection E → setNodes_visible E → wrapNodes_visible E →
  format ∉ TEXT_ALIGN_TYPES →
  is_Some (selection e) →
  isBlockActive e format "type" = false →
  toggleBlock (toggleBlock e format) format
  = Transforms_setNodes
      (Transforms_unwrapNodes (toggleBlock e format) (unwrap_match format) true)
      {| p_type := Some "paragraph"; p_align := None |}.
Proof.
  intros Hfilter Hnothing Hunwrap Hset Hvisible Hwrap Hf Hsel Hoff.
  apply toggleBlock_off_eq; [done|].
  pose proof (toggleBlock_activates e format Hfilter Hnothing Hunwrap Hset
                Hvisible Hwrap Hsel) as Hact.
  apply includes_false in Hf. rewrite Hf in Hact. by apply Hact.
Qed.

Lemma toggleBlock_type_twice_witness :
  toggleBlock (toggleBlock (Ref.at_paragraph "x") "bulleted-list") "bulleted-list"
  = Transforms_setNodes
      (Transforms_unwrapNodes
         (toggleBlock (Ref.at_paragraph "x") "bulleted-list")
         (unwrap_match "bulleted-list") true)
      {| p_type := Some "paragraph"; p_align := None |}.
Proof.
  apply (toggleBlock_type_twice (Ref.at_paragraph "x") "bulleted-list").
  - exact RefLaws.nodes_filter_ref.
  - exact RefLaws.unwrap_nothing_ref.
  - exact RefLaws.unwrapNodes_keeps_selection_ref.
  - exact RefLaws.setNodes_keeps_selection_ref.
  - exact RefLaws.setNodes_visible_ref.
  - exact RefLaws.wrapNodes_visible_ref.
  - unfold TEXT_ALIGN_TYPES. rewrite !elem_of_cons, elem_of_nil.
    intros [?|[?|[?|[?|[]]]]]; discriminate.
  - simpl. by eexists.
  - reflexivity.
Defined.

(** X13.  The leaf renderer looks at nothing but whether bold, code,
    italic and underline are [true]: two runs that agree on these four
    render alike, whatever their text and their other marks, and a mark
    that is [false] renders like a mark that is absent. *)
Theorem Leaf_flags_only (props props' : RenderLeafProps) :
  (∀ k, k ∈ ["bold"; "code"; "italic"; "underline"] →
        leaf_flag (rl_leaf props) k = leaf_flag (rl_leaf props') k) →
  rl_attributes props = rl_attributes props' →
  rl_children props = rl_children props' →
  Leaf props = Leaf props'.
Proof.
  intros Hflags Hattrs Hkids. unfold Leaf.
  rewrite Hattrs, Hkids.
  by rewrite !Hflags by (rewrite !elem_of_cons; tauto).
Qed.

Lemma Leaf_flags_only_witness :
  Leaf (mkLeafProps (mkText "a" {["bold" := false; "code" := true]}) []
          (Given "a"))
  = Leaf (mkLeafProps (mkText "b" {["code" := true; "strike" := true]}) []
            (Given "a")).
Proof.
  apply (Leaf_flags_only
           (mkLeafProps (mkText "a" {["bold" := false; "code" := true]}) []
              (Given "a"))
           (mkLeafProps (mkText "b" {["code" := true; "strike" := true]}) []
              (Given "a"))).
  - intros k Hk. simpl in Hk.
    repeat (apply elem_of_cons in Hk as [->|Hk]); try reflexivity.
    by apply elem_of_nil in Hk.
  - reflexivity.
  - reflexivity.
Defined.

(** X16.  [isBlockActive] asked for a property other than ["type"] and
    ["align"] answers [false], whatever the document and the format. *)
Theorem isBlockActive_other_property {E : Type} `{Slate E}
    (e : E) (format blockType : string) :
  nodes_filter E →
  blockType ≠ "type" → blockType ≠ "align" →
  isBlockActive e format blockType = false.
Proof.
  intros Hfilter Hty Hal.
  destruct (selection e) as [sel|] eqn:Hsel;
    [|by apply isBlockActive_blurred].
  destruct (isBlockActive e format blockType) eqn:Hact; [|done].
  apply (isBlockActive_iff e format blockType sel Hfilter Hsel) in Hact
    as (el & path & _ & Hget).
  apply Element_get_cases in Hget as [[? _]|[? _]]; done.
Qed.

Lemma isBlockActive_other_property_witness :
  isBlockActive (Ref.at_paragraph "x") "x" "children" = false.
Proof.
  apply (isBlockActive_other_property (Ref.at_paragraph "x") "x" "children").
  - exact RefLaws.nodes_filter_ref.
  - discriminate.
  - discriminate.
Defined.

(** ** The toolbar against the renderers *)

Section ToolbarFacts.
Context {E : Type} `{Slate E}.

(** What [toggleBlock] asks of the engine for a format that is not an
    alignment: one type, paragraph, list item or the format, set after the
    unwrap, and a container only for a list. *)
Lemma toggleBlock_type_shape (e : E) (format : string) :
  format ∉ TEXT_ALIGN_TYPES →
  ∃ t, (t = "paragraph" ∨ (t = "list-item" ∧ format ∈ LIST_TYPES) ∨ t = format)
       ∧ (toggleBlock e format
          = Transforms_setNodes
              (Transforms_unwrapNodes e (unwrap_match format) true)
              {| p_type := Some t; p_align := None |}
          ∨ (format ∈ LIST_TYPES
             ∧ toggleBlock e format
               = Transforms_wrapNodes
                   (Transforms_setNodes
                      (Transforms_unwrapNodes e (unwrap_match format) true)
                      {| p_type := Some t; p_align := None |})
                   (mkElement format None []))).
Proof.
  intros Hf. apply includes_false in Hf. unfold toggleBlock. rewrite Hf.
  destruct (isBlockActive e format "type"); simpl.
  - exists "paragraph". split; [by left | by left].
  - destruct (includes LIST_TYPES format) eqn:Hl.
    + apply includes_true in Hl. exists "list-item". split; [by right; left|].
      by right.
    + exists format. split; [by right; right | by left].
Qed.
End ToolbarFacts.

(** X17.  No block button of the toolbar can give a block the renderer
    does not know: its format is an alignment keyword that the registry maps
    to itself, or a recognized type, and then every type [toggleBlock] sets
    for it is ["paragraph"] or a recognized type, and the container it adds,
    if any, is of a recognized type. *)
Theorem Toolbar_blocks_rendered {E : Type} `{Slate E} (e : E) (format icon' : string) :
  TBlock format icon' ∈ Toolbar →
  (format ∈ TEXT_ALIGN_TYPES ∧ formatDirectory !! format = Some format)
  ∨ (format ∈ RENDERED_TYPES
     ∧ ∃ t, (t = "paragraph" ∨ t ∈ RENDERED_TYPES)
            ∧ (toggleBlock e format
               = Transforms_setNodes
                   (Transforms_unwrapNodes e (unwrap_match format) true)
                   {| p_type := Some t; p_align := None |}
               ∨ toggleBlock e format
                 = Transforms_wrapNodes
                     (Transforms_setNodes
                        (Transforms_unwrapNodes e (unwrap_match format) true)
                        {| p_type := Some t; p_align := None |})
                     (mkElement format None []))).
Proof.
  intros Hin.
  assert (format ∈ TEXT_ALIGN_TYPES
          ∨ ((format ∉ TEXT_ALIGN_TYPES) ∧ format ∈ RENDERED_TYPES)) as [Ha|[Ha Hr]].
  { unfold Toolbar in Hin.
    repeat (apply elem_of_cons in Hin as [Heq|Hin]);
      try discriminate Heq; try (by apply elem_of_nil in Hin);
      injection Heq as -> _;
      unfold TEXT_ALIGN_TYPES, RENDERED_TYPES;
      rewrite ?elem_of_cons, ?elem_of_nil;
      first [ left; tauto
            | right; split;
              [ intros [?|[?|[?|[?|[]]]]]; discriminate | tauto ] ]. }
  - left. split; [done | by apply formatDirectory_align].
  - right. split; [done|].
    destruct (toggleBlock_type_shape e format Ha) as (t & Ht & Hshape).
    exists t. split.
    + destruct Ht as [->|[[-> _]| ->]]; [by left | right | by right].
      unfold RENDERED_TYPES. rewrite !elem_of_cons. tauto.
    + destruct Hshape as [?|[_ ?]]; [by left | by right].
Qed.

Lemma Toolbar_blocks_rendered_witness :
  ("numbered-list" ∈ TEXT_ALIGN_TYPES
   ∧ formatDirectory !! "numbered-list" = Some "numbered-list")
  ∨ ("numbered-list" ∈ RENDERED_TYPES
     ∧ ∃ t, (t = "paragraph" ∨ t ∈ RENDERED_TYPES)
            ∧ (toggleBlock (Ref.at_paragraph "x") "numbered-list"
               = Transforms_setNodes
                   (Transforms_unwrapNodes (Ref.at_paragraph "x")
                      (unwrap_match "numbered-list") true)
                   {| p_type := Some t; p_align := None |}
               ∨ toggleBlock (Ref.at_paragraph "x") "numbered-list"
                 = Transforms_wrapNodes
                     (Transforms_setNodes
                        (Transforms_unwrapNodes (Ref.at_paragraph "x")
                           (unwrap_match "numbered-list") true)
                        {| p_type := Some t; p_align := None |})
                     (mkElement "numbered-list" None []))).
Proof.
  apply (Toolbar_blocks_rendered (Ref.at_paragraph "x") "numbered-list"
           "format_list_numbered").
  unfold Toolbar. rewrite !elem_of_cons. tauto.
Defined.


(** * Transforms on the tree *)

(** ** Paths on the way to the cursor *)

Section Chains.

Lemma above_take (P : Path) (j k : nat) :
  j < length P → k < length P →
  above (take (S j) P) (take (S k) P) = bool_decide (j < k).
Proof.
  intros Hj Hk. unfold above.
  rewrite !length_take_le by lia.
  destruct (decide (j < k)) as [Hlt|Hge].
  - rewrite (bool_decide_eq_true_2 (j < k)) by done.
    apply andb_true_iff. split.
    + apply Nat.ltb_lt. lia.
    + apply bool_decide_eq_true. rewrite take_take. f_equal. lia.
  - rewrite (bool_decide_eq_false_2 (j < k)) by done.
    apply andb_false_iff. left. apply Nat.ltb_ge. lia.
Qed.

(** The entries of a chain of elements on the path [P]. *)
Lemma fst_imap_entries (P : Path) (R : list Element') (o : nat) :
  (imap (λ k el, (el, take (S (o + k)) P)) R).*1 = R.
Proof.
  revert o. induction R as [|x R IH]; intros o; [done|].
  rewrite imap_cons. simpl. f_equal.
  rewrite <- (IH (S o)) at 2. f_equal. apply imap_ext. intros k y _. simpl.
  by rewrite Nat.add_succ_r.
Qed.

Lemma lowest_match_chain (m : Node → bool) (P : Path) (R : list Element')
    (j : nat) (x : Element') :
  (length R ≤ length P)%nat →
  R !! j = Some x →
  lowest_match m (imap (λ k el, (el, take (S k) P)) R) (x, take (S j) P)
  = m (NElement x) && forallb (λ y, negb (m (NElement y))) (drop (S j) R).
Proof.
  intros Hlen Hj. unfold lowest_match. simpl. f_equal.
  pose proof (lookup_lt_Some _ _ _ Hj) as Hjlt.
  apply eq_bool_prop_intro. rewrite !forallb_True, !Forall_lookup. split.
  - intros Hall i y Hi. rewrite lookup_drop in Hi.
    pose proof (lookup_lt_Some _ _ _ Hi) as Hilt.
    specialize (Hall (S j + i) (y, take (S (S j + i)) P)).
    rewrite list_lookup_imap, Hi in Hall. specialize (Hall eq_refl).
    simpl in Hall. rewrite above_take in Hall by lia.
    rewrite (bool_decide_eq_true_2 (j < S j + i)) in Hall by lia.
    by rewrite andb_true_r in Hall.
  - intros Hall k [y q] Hk. rewrite list_lookup_imap in Hk.
    destruct (R !! k) as [y'|] eqn:Hy; [|done]. injection Hk as <- <-.
    pose proof (lookup_lt_Some _ _ _ Hy) as Hklt. simpl.
    rewrite above_take by lia.
    destruct (decide (j < k)) as [Hlt|Hge].
    + specialize (Hall (k - S j) y'). rewrite lookup_drop in Hall.
      replace (S j + (k - S j)) with k in Hall by lia.
      specialize (Hall Hy). simpl in Hall.
      destruct (m (NElement y')); [done|]. done.
    + rewrite (bool_decide_eq_false_2 (j < k)) by done.
      by rewrite andb_false_r.
Qed.

Lemma lowest_block_chain (P : Path) (R : list Element')
    (j : nat) (x : Element') :
  (length R ≤ length P)%nat →
  R !! j = Some x →
  lowest_block (imap (λ k el, (el, take (S k) P)) R) (x, take (S j) P)
  = bool_decide (S j = length R).
Proof.
  intros Hlen Hj. unfold lowest_block. simpl.
  pose proof (lookup_lt_Some _ _ _ Hj) as Hjlt.
  apply eq_bool_prop_intro. rewrite forallb_True, Forall_lookup.
  rewrite bool_decide_spec. split.
  - intros Hall. destruct (decide (S j = length R)) as [|Hne]; [done|].
    destruct (lookup_lt_is_Some_2 R (S j)) as [y Hy]; [lia|].
    specialize (Hall (S j) (y, take (S (S j)) P)).
    rewrite list_lookup_imap, Hy in Hall. specialize (Hall eq_refl).
    simpl in Hall. rewrite above_take in Hall by lia.
    by rewrite (bool_decide_eq_true_2 (j < S j)) in Hall by lia.
  - intros Hlast k [y q] Hk. rewrite list_lookup_imap in Hk.
    destruct (R !! k) as [y'|] eqn:Hy; [|done]. injection Hk as <- <-.
    pose proof (lookup_lt_Some _ _ _ Hy) as Hklt. simpl.
    rewrite above_take by lia.
    by rewrite (bool_decide_eq_false_2 (j < k)) by lia.
Qed.
End Chains.

(** ** The reference engine keeps the tree contract *)

Module RefTree.
Import Ref.

Lemma ancestors_length child up :
  length (ancestors child up) = length up.
Proof.
  revert child. induction up as [|f up IH]; intros child; simpl; [done|].
  by rewrite IH.
Qed.

Lemma chain_length (c : Cursor) : length (chain c) = S (length (cu_up c)).
Proof.
  unfold chain. rewrite length_app, length_rev, ancestors_length. simpl. lia.
Qed.

Lemma ancestors_kinds child up :
  kind <$> ancestors child up = frame_kind <$> up.
Proof.
  revert child. induction up as [|f up IH]; intros child; simpl; [done|].
  by rewrite IH.
Qed.

Lemma fmap_rev {A B} (f : A → B) (l : list A) : f <$> rev l = rev (f <$> l).
Proof.
  induction l as [|x l IH]; simpl; [done|].
  by rewrite fmap_app, IH.
Qed.

Lemma chain_kinds (c : Cursor) :
  kind <$> chain c = rev (frame_kind <$> cu_up c) ++ [kind (cu_block c)].
Proof.
  unfold chain. by rewrite fmap_app, fmap_rev, ancestors_kinds.
Qed.

Lemma omap_elements (l : list Element') (Q : nat → Path) :
  omap (λ entry : NodeEntry,
          match entry.1 with
          | NElement el => Some (el, entry.2)
          | _ => None
          end)
       (imap (λ i el, (NElement el, Q i)) l)
  = imap (λ i el, (el, Q i)) l.
Proof.
  revert Q. induction l as [|x l IH]; intros Q; [done|].
  rewrite !imap_cons. simpl. f_equal. apply (IH (Q ∘ S)).
Qed.

(** The elements of the selection are the chain, each with its path. *)
Lemma selected_ref (c : Cursor) pe :
  selected_elements (mkEditor (Focused c) pe)
  = imap (λ i el, (el, take (S i) (cursor_path c))) (chain c).
Proof.
  unfold selected_elements. simpl. rewrite RefLaws.filter_all.
  unfold walk. simpl. rewrite omap_app, omap_elements.
  destruct (children (cu_block c)) as [|[el|t] rest]; simpl;
    by rewrite app_nil_r.
Qed.

Lemma outline_ref (c : Cursor) pe :
  outline (mkEditor (Focused c) pe)
  = rev (frame_kind <$> cu_up c) ++ [kind (cu_block c)].
Proof.
  unfold outline. rewrite selected_ref, <- chain_kinds.
  rewrite <- (fst_imap_entries (cursor_path c) (chain c) 0) at 2.
  by rewrite <- list_fmap_compose.
Qed.

(** The block is the one element of the selection with none below it. *)
Lemma lowest_block_ref (c : Cursor) pe entry :
  entry ∈ selected_elements (mkEditor (Focused c) pe) →
  lowest_block (selected_elements (mkEditor (Focused c) pe)) entry = true →
  entry = (cu_block c, take (S (length (cu_up c))) (cursor_path c)).
Proof.
  rewrite selected_ref. intros Hin Hlow.
  apply elem_of_lookup_imap in Hin as (j & x & -> & Hj).
  rewrite lowest_block_chain in Hlow; [|by rewrite chain_length,
    RefLaws.cursor_path_length | done].
  apply bool_decide_eq_true in Hlow. rewrite chain_length in Hlow.
  injection Hlow as ->.
  rewrite RefLaws.chain_block in Hj. by injection Hj as ->.
Qed.

Lemma block_selected_ref (c : Cursor) pe :
  (cu_block c, take (S (length (cu_up c))) (cursor_path c))
  ∈ selected_elements (mkEditor (Focused c) pe)
  ∧ lowest_block (selected_elements (mkEditor (Focused c) pe))
      (cu_block c, take (S (length (cu_up c))) (cursor_path c)) = true.
Proof.
  rewrite selected_ref. split.
  - apply (elem_of_lookup_imap_2 (λ i el, (el, take (S i) (cursor_path c)))).
    apply RefLaws.chain_block.
  - rewrite lowest_block_chain; [|by rewrite chain_length,
      RefLaws.cursor_path_length | apply RefLaws.chain_block].
    apply bool_decide_eq_true. by rewrite chain_length.
Qed.

Lemma setNodes_blocks_ref : setNodes_blocks Editor.
Proof.
  intros [d pe] props entry [sel Hsel]. simpl in Hsel.
  destruct d as [|c]; [done|].
  change (Transforms_setNodes (mkEditor (Focused c) pe) props)
    with (mkEditor
            (Focused (mkCursor (apply_props props (cu_block c)) (cu_up c)
                        (cu_before c) (cu_after c))) pe).
  intros Hin Hlow. rewrite (lowest_block_ref _ _ _ Hin Hlow). simpl.
  unfold apply_props. split; simpl.
  - by intros t ->.
  - by intros a ->.
Qed.
Lemma fst_entries (P : Path) (R : list Element') :
  (imap (λ k el, (el, take (S k) P)) R).*1 = R.
Proof. exact (fst_imap_entries P R 0). Qed.

(** Wrapping: the new element comes between the ancestors and the
    block. *)
Lemma wrapNodes_wraps_ref : wrapNodes_wraps Editor.
Proof.
  intros [d pe] block [sel Hsel]. simpl in Hsel.
  destruct d as [|c]; [done|].
  set (frame := mkFrame [] (type block) (align block) []).
  set (c' := mkCursor (cu_block c) (frame :: cu_up c) (cu_before c) (cu_after c)).
  change (Transforms_wrapNodes (mkEditor (Focused c) pe) block)
    with (mkEditor (Focused c') pe).
  set (n := length (cu_up c)).
  set (anc := rev (ancestors (DElement (cu_block c)) (cu_up c))).
  set (wrapper := close (DElement (cu_block c)) frame).
  set (anc' := rev (ancestors (DElement wrapper) (cu_up c))).
  assert (length anc = n) as Hanc
    by (unfold anc; by rewrite length_rev, ancestors_length).
  assert (length anc' = n) as Hanc'
    by (unfold anc'; by rewrite length_rev, ancestors_length).
  assert (selected_elements (mkEditor (Focused c) pe)
          = imap (λ i el, (el, take (S i) (cursor_path c))) anc
            ++ [(cu_block c, take (S n) (cursor_path c))]) as Hbefore.
  { rewrite selected_ref. unfold chain. fold anc. rewrite imap_app. simpl.
    by rewrite Hanc, Nat.add_0_r. }
  assert (selected_elements (mkEditor (Focused c') pe)
          = imap (λ i el, (el, take (S i) (cursor_path c'))) anc'
            ++ (wrapper, take (S n) (cursor_path c'))
            :: [(cu_block c, take (S (S n)) (cursor_path c'))]) as Hafter.
  { rewrite selected_ref. unfold chain. simpl. fold wrapper. fold anc'.
    rewrite !imap_app. simpl. rewrite length_app, Hanc'. simpl.
    rewrite <- app_assoc. simpl.
    by rewrite !Nat.add_0_r, Nat.add_1_r. }
  eexists _, _, _, _, wrapper, _.
  split; [exact Hbefore|]. split; [exact Hafter|].
  split; [|split; [|split; [|split; [|split]]]].
  - rewrite !fst_entries.
    unfold anc, anc'. by rewrite !fmap_rev, !ancestors_kinds.
  - done.
  - done.
  - done.
  - change (above (take (S n) (cursor_path c'))
                   (take (S (S n)) (cursor_path c')) && true = true).
    rewrite andb_true_r.
    assert (length (cursor_path c') = S (S n)) as Hlen
      by (rewrite RefLaws.cursor_path_length; done).
    rewrite above_take by lia. apply bool_decide_eq_true. lia.
  - intros entry Hin Hlow.
    rewrite (lowest_block_ref c pe entry Hin Hlow).
    apply elem_of_cons. by left.
Qed.

Lemma drop_last_none (m : Element' → bool) (l : list Element') :
  forallb (λ y, negb (m y)) l = true → drop_last m l = l.
Proof.
  induction l as [|x l IH]; simpl; [done|].
  intros [Hx Hl]%andb_true_iff.
  apply negb_true_iff in Hx. rewrite Hx. simpl. by rewrite IH.
Qed.

Lemma drop_last_snoc (m : Element' → bool) (l : list Element') x :
  drop_last m (l ++ [x]) = if m x then l else drop_last m l ++ [x].
Proof.
  induction l as [|y l IH]; simpl.
  - by destruct (m x).
  - rewrite forallb_app. simpl. rewrite andb_true_r, IH.
    destruct (m x); simpl.
    + by rewrite !andb_false_r.
    + rewrite andb_true_r. by destruct (m y && forallb _ l).
Qed.

Lemma drop_last_rev (m : Element' → bool) (l : list Element') :
  drop_last m (rev l) = rev (drop_first m l).
Proof.
  induction l as [|x l IH]; simpl; [done|].
  rewrite drop_last_snoc. destruct (m x); [done|].
  simpl. by rewrite IH.
Qed.

(** Filtering the lowest accepted element out of a chain. *)
Lemma filter_chain (m : Node → bool) (P : Path) (full R : list Element')
    (o : nat) :
  (length full ≤ length P)%nat →
  drop o full = R →
  (filter (λ entry : Element' * Path,
             lowest_match m (imap (λ k el, (el, take (S k) P)) full) entry
             = false)
          (imap (λ k el, (el, take (S (o + k)) P)) R)).*1
  = drop_last (λ el, m (NElement el)) R.
Proof.
  intros Hlen. revert o. induction R as [|x R IH]; intros o Hdrop; [done|].
  assert (full !! o = Some x) as Hx.
  { rewrite <- (Nat.add_0_r o), <- lookup_drop, Hdrop. done. }
  assert (drop (S o) full = R) as Hdrop'.
  { rewrite <- (Nat.add_1_r o), <- drop_drop, Hdrop. done. }
  rewrite imap_cons, Nat.add_0_r.
  assert (imap ((λ k el, (el, take (S (o + k)) P)) ∘ S) R
          = imap (λ k el, (el, take (S (S o + k)) P)) R) as ->.
  { apply imap_ext. intros k y _. simpl. by rewrite Nat.add_succ_r. }
  pose proof (lowest_match_chain m P full o x Hlen Hx) as Hlow.
  rewrite Hdrop' in Hlow. cbn [drop_last].
  destruct (m (NElement x) && forallb (λ y, negb (m (NElement y))) R) eqn:Hm.
  - rewrite filter_cons_False by (rewrite Hlow; done).
    etrans; [exact (IH (S o) Hdrop')|].
    apply andb_true_iff in Hm as [_ Hnone].
    by apply (drop_last_none (λ el, m (NElement el))).
  - rewrite filter_cons_True by done.
    rewrite fmap_cons. cbn [fst]. f_equal. exact (IH (S o) Hdrop').
Qed.

Lemma unwrap_up_kinds (m : Node → bool) split child up :
  frame_kind <$> (unwrap_up m split child up).1.1
  = kind <$> drop_first (λ el, m (NElement el)) (ancestors child up).
Proof.
  revert child. induction up as [|f up IH]; intros child; simpl; [done|].
  destruct (m (NElement (close child f))).
  - rewrite ancestors_kinds. by destruct up as [|g up'].
  - specialize (IH (DElement (close child f))).
    destruct (unwrap_up m split (DElement (close child f)) up) as [[up' l] r].
    simpl in *. f_equal. exact IH.
Qed.

Lemma unwrapNodes_lowest_ref : unwrapNodes_lowest Editor.
Proof.
  intros [d pe] m split [sel Hsel] Hblocks. simpl in Hsel.
  destruct d as [|c]; [done|].
  assert (m (NElement (cu_block c)) = false) as Hblock.
  { destruct (block_selected_ref c pe) as [Hin Hlow].
    apply Is_true_true in Hblocks.
    rewrite forallb_True, Forall_forall in Hblocks.
    specialize (Hblocks _ (proj1 (list_elem_of_In _ _) Hin)).
    rewrite Hlow in Hblocks. simpl in Hblocks.
    by destruct (m (NElement (cu_block c))). }
  rewrite selected_ref.
  assert (length (chain c) ≤ length (cursor_path c))%nat as Hlen
    by (by rewrite chain_length, RefLaws.cursor_path_length).
  pose proof (filter_chain m (cursor_path c) (chain c) (chain c) 0 Hlen eq_refl)
    as Hfilter.
  etrans; [|apply (f_equal (fmap kind)); symmetry; exact Hfilter].
  unfold chain. rewrite drop_last_snoc, Hblock, drop_last_rev.
  pose proof (unwrap_up_kinds m split (DElement (cu_block c)) (cu_up c)) as Hk.
  change (Transforms_unwrapNodes (mkEditor (Focused c) pe) m split)
    with (unwrapNodes (mkEditor (Focused c) pe) m split).
  unfold unwrapNodes. simpl.
  destruct (unwrap_up m split (DElement (cu_block c)) (cu_up c)) as [[up' l] r].
  rewrite outline_ref. simpl in *.
  by rewrite fmap_app, fmap_rev, Hk.
Qed.
End RefTree.

(** ** Turning a list format on *)

Section TreeFacts.
Context {E : Type} `{Slate E}.

Lemma lowest_match_ext (m m' : Node → bool) entries entry :
  (∀ n, m n = m' n) →
  lowest_match m entries entry = lowest_match m' entries entry.
Proof.
  intros Hext. unfold lowest_match. rewrite Hext. f_equal.
  induction entries as [|other entries IH]; simpl; [done|].
  by rewrite Hext, IH.
Qed.

Lemma forallb_ext' {A} (f g : A → bool) (l : list A) :
  (∀ x, f x = g x) → forallb f l = forallb g l.
Proof.
  intros Hext. induction l as [|x l IH]; simpl; [done|].
  by rewrite Hext, IH.
Qed.

(** For a format that is not an alignment, the [match] of the unwrap is
    "a list container". *)
Lemma unwrap_match_is_list (format : string) (n : Node) :
  format ∉ TEXT_ALIGN_TYPES → unwrap_match format n = is_list_container n.
Proof.
  intros Hf. apply includes_false in Hf. unfold unwrap_match. rewrite Hf.
  simpl. rewrite andb_true_r. by destruct n.
Qed.

Lemma toggleBlock_list_on_eq (e : E) (format : string) :
  format ∈ LIST_TYPES →
  isBlockActive e format "type" = false →
  toggleBlock e format
  = Transforms_wrapNodes
      (Transforms_setNodes
         (Transforms_unwrapNodes e (unwrap_match format) true)
         {| p_type := Some "list-item"; p_align := None |})
      (mkElement format None []).
Proof.
  intros Hlist Hoff. unfold toggleBlock.
  rewrite (list_format_not_align format Hlist), Hoff.
  apply includes_true in Hlist. by rewrite Hlist.
Qed.
End TreeFacts.

(** C2.  For every list format (bulleted-list or numbered-list) that is
    not active at the current selection, [toggleBlock] with that format
    sets the type of the selected blocks to ["list-item"] and wraps the
    selection in exactly one new container block whose type is that list
    format: among the elements of the selection there is one new element,
    of that type; the blocks are below it, as [setNodes] left them, with
    type ["list-item"]; the elements above it keep their kinds. *)
Theorem toggleBlock_list_on {E : Type} `{Slate E} (e : E) (format : string) :
  unwrapNodes_keeps_selection E → setNodes_keeps_selection E →
  setNodes_blocks E → wrapNodes_wraps E →
  format ∈ LIST_TYPES →
  isBlockActive e format "type" = false →
  is_Some (selection e) →
  toggleBlock e format
  = Transforms_wrapNodes
      (Transforms_setNodes
         (Transforms_unwrapNodes e (unwrap_match format) true)
         {| p_type := Some "list-item"; p_align := None |})
      (mkElement format None [])
  ∧ ∃ outer inner outer' inner' wrapper path,
      selected_elements
        (Transforms_setNodes
           (Transforms_unwrapNodes e (unwrap_match format) true)
           {| p_type := Some "list-item"; p_align := None |})
      = outer ++ inner
      ∧ selected_elements (toggleBlock e format)
        = outer' ++ (wrapper, path) :: inner'
      ∧ kind <$> outer'.*1 = kind <$> outer.*1
      ∧ inner'.*1 = inner.*1
      ∧ kind wrapper = (format, None)
      ∧ inner ≠ []
      ∧ forallb (λ entry : Element' * Path, above path entry.2) inner' = true
      ∧ (∀ entry,
           entry ∈ selected_elements
                     (Transforms_setNodes
                        (Transforms_unwrapNodes e (unwrap_match format) true)
                        {| p_type := Some "list-item"; p_align := None |}) →
           lowest_block
             (selected_elements
                (Transforms_setNodes
                   (Transforms_unwrapNodes e (unwrap_match format) true)
                   {| p_type := Some "list-item"; p_align := None |}))
             entry = true →
           entry ∈ inner ∧ type entry.1 = "list-item").
Proof.
  intros Hunwrap Hset Hblocks Hwrap Hlist Hoff Hsel.
  rewrite (toggleBlock_list_on_eq e format Hlist Hoff). split; [done|].
  set (unwrapped := Transforms_unwrapNodes e (unwrap_match format) true).
  set (props := {| p_type := Some "list-item"; p_align := None |}).
  assert (is_Some (selection unwrapped)) as Hsel1 by (by apply Hunwrap).
  assert (is_Some (selection (Transforms_setNodes unwrapped props))) as Hsel2
    by (by apply Hset).
  destruct (Hwrap (Transforms_setNodes unwrapped props)
              (mkElement format None []) Hsel2)
    as (outer & inner & outer' & inner' & wrapper & path
        & Hbefore & Hafter & Houter & Hinner & Hkind & Hne & Hbelow & Hlow).
  exists outer, inner, outer', inner', wrapper, path.
  repeat (split; [done|]).
  intros entry Hin Hlowest. split; [by apply Hlow|].
  destruct (Hblocks unwrapped props entry Hsel1 Hin Hlowest) as [Hty _].
  by apply Hty.
Qed.

Lemma toggleBlock_list_on_witness :
  toggleBlock (Ref.at_paragraph "x") "bulleted-list"
  = Transforms_wrapNodes
      (Transforms_setNodes
         (Transforms_unwrapNodes (Ref.at_paragraph "x")
            (unwrap_match "bulleted-list") true)
         {| p_type := Some "list-item"; p_align := None |})
      (mkElement "bulleted-list" None [])
  ∧ ∃ outer inner outer' inner' wrapper path,
      selected_elements
        (Transforms_setNodes
           (Transforms_unwrapNodes (Ref.at_paragraph "x")
              (unwrap_match "bulleted-list") true)
           {| p_type := Some "list-item"; p_align := None |})
      = outer ++ inner
      ∧ selected_elements (toggleBlock (Ref.at_paragraph "x") "bulleted-list")
        = outer' ++ (wrapper, path) :: inner'
      ∧ kind <$> outer'.*1 = kind <$> outer.*1
      ∧ inner'.*1 = inner.*1
      ∧ kind wrapper = ("bulleted-list", None)
      ∧ inner ≠ []
      ∧ forallb (λ entry : Element' * Path, above path entry.2) inner' = true
      ∧ (∀ entry,
           entry ∈ selected_elements
                     (Transforms_setNodes
                        (Transforms_unwrapNodes (Ref.at_paragraph "x")
                           (unwrap_match "bulleted-list") true)
                        {| p_type := Some "list-item"; p_align := None |}) →
           lowest_block
             (selected_elements
                (Transforms_setNodes
                   (Transforms_unwrapNodes (Ref.at_paragraph "x")
                      (unwrap_match "bulleted-list") true)
                   {| p_type := Some "list-item"; p_align := None |}))
             entry = true →
           entry ∈ inner ∧ type entry.1 = "list-item").
Proof.
  apply (toggleBlock_list_on (Ref.at_paragraph "x") "bulleted-list").
  - exact RefLaws.unwrapNodes_keeps_selection_ref.
  - exact RefLaws.setNodes_keeps_selection_ref.
  - exact RefTree.setNodes_blocks_ref.
  - exact RefTree.wrapNodes_wraps_ref.
  - unfold LIST_TYPES. apply elem_of_cons. right. apply elem_of_cons. by left.
  - reflexivity.
  - simpl. by eexists.
Defined.

(** On the reference engine the elements of the selection after the toggle
    are the new list and, in it, the block as a list item. *)
Example toggleBlock_list_on_selected :
  selected_elements (toggleBlock (Ref.at_paragraph "x") "bulleted-list")
  = [ (mkElement "bulleted-list" None
         [ DElement (mkElement "list-item" None [DText (mkText "x" ∅)]) ],
       [0]);
      (mkElement "list-item" None [DText (mkText "x" ∅)], [0; 0]) ].
Proof. reflexivity. Qed.

(** ** Unwrapping list containers *)

(** C4 as stated fails where a list is in a list: the unwrap takes the
    lowest list container away and leaves the one around it.  A heading
    requested in the inner list is still in the numbered list
    afterwards. *)
Lemma toggleBlock_keeps_outer_list :
  outline (Ref.in_nested_list "x")
  = [ ("numbered-list", None); ("list-item", None);
      ("bulleted-list", None); ("list-item", None) ]
  ∧ outline (Transforms_unwrapNodes (Ref.in_nested_list "x")
               (unwrap_match "heading-one") true)
    = [ ("numbered-list", None); ("list-item", None); ("list-item", None) ]
  ∧ Ref.editor_children (toggleBlock (Ref.in_nested_list "x") "heading-one")
    = [ DElement
          (mkElement "numbered-list" None
             [ DElement
                 (mkElement "list-item" None
                    [ DElement
                        (mkElement "heading-one" None
                           [DText (mkText "x" ∅)]) ]) ]) ].
Proof. repeat split; reflexivity. Qed.

(** C4, as amended.  For every format that is not an alignment keyword,
    [toggleBlock] first unwraps the lowest enclosing list containers
    (bulleted-list or numbered-list), those with no list container below
    them in the selection, before applying the new properties, even when
    the format is unrelated to lists; every other element of the selection,
    a list container around another one too, stays.  For every alignment
    keyword this unwrap step removes no list container.  (The blocks that
    hold the text are no list containers.) *)
Theorem toggleBlock_unwraps_lowest {E : Type} `{Slate E} (e : E) (format : string) :
  unwrap_nothing E → unwrapNodes_lowest E →
  (∃ props,
     toggleBlock e format
     = Transforms_setNodes
         (Transforms_unwrapNodes e (unwrap_match format) true) props
     ∨ toggleBlock e format
       = Transforms_wrapNodes
           (Transforms_setNodes
              (Transforms_unwrapNodes e (unwrap_match format) true) props)
           (mkElement format None []))
  ∧ (format ∉ TEXT_ALIGN_TYPES →
     is_Some (selection e) →
     forallb (λ entry : Element' * Path,
                negb (lowest_block (selected_elements e) entry
                      && is_list_container (NElement entry.1)))
             (selected_elements e) = true →
     outline (Transforms_unwrapNodes e (unwrap_match format) true)
     = kind <$> (filter (λ entry : Element' * Path,
                           lowest_match is_list_container
                             (selected_elements e) entry = false)
                        (selected_elements e)).*1)
  ∧ (format ∈ TEXT_ALIGN_TYPES →
     Transforms_unwrapNodes e (unwrap_match format) true = e).
Proof.
  intros Hnothing Hlowest. split; [|split].
  - unfold toggleBlock. eexists.
    destruct (negb _ && includes LIST_TYPES format); [by right | by left].
  - intros Hf Hsel Hblocks.
    rewrite (Hlowest e (unwrap_match format) true Hsel).
    + f_equal. f_equal. apply list_filter_iff. intros entry.
      rewrite (lowest_match_ext (unwrap_match format) is_list_container);
        [reflexivity|].
      intros n. by apply unwrap_match_is_list.
    + rewrite <- Hblocks. apply forallb_ext'. intros entry.
      by rewrite (unwrap_match_is_list format _ Hf).
  - intros Hf. apply Hnothing. intros n. by apply unwrap_match_align.
Qed.

Lemma toggleBlock_unwraps_lowest_witness :
  outline (Transforms_unwrapNodes (Ref.in_nested_list "x")
             (unwrap_match "heading-one") true)
  = kind <$> (filter (λ entry : Element' * Path,
                        lowest_match is_list_container
                          (selected_elements (Ref.in_nested_list "x")) entry
                        = false)
                     (selected_elements (Ref.in_nested_list "x"))).*1.
Proof.
  apply (toggleBlock_unwraps_lowest (Ref.in_nested_list "x") "heading-one"
           RefLaws.unwrap_nothing_ref RefTree.unwrapNodes_lowest_ref).
  - unfold TEXT_ALIGN_TYPES. rewrite !elem_of_cons, elem_of_nil.
    intros [?|[?|[?|[?|[]]]]]; discriminate.
  - simpl. by eexists.
  - reflexivity.
Defined.

(** * The block renderer *)

Section RenderFacts.

(** Rendering throws exactly on a frozen block without align. *)
Lemma Element_throws_iff (props : RenderElementProps) :
  Element props = TypeError
  ↔ align (re_element props) = None ∧ re_frozen props = true.
Proof.
  unfold Element. destruct (align (re_element props)) as [a|] eqn:Hal;
    [|destruct (re_frozen props)]; simpl.
  - rewrite Hal. split; [done | by intros [? _]].
  - done.
  - split; [done | by intros [_ ?]].
Qed.

(** What rendering returns when the block has an align or is not
    frozen. *)
Lemma Element_returns (props : RenderElementProps) :
  re_frozen props = false ∨ is_Some (align (re_element props)) →
  ∃ tag,
    Element props
    = Returned
        (JSX tag
           (Some (mkStyle (Some (default "left" (align (re_element props))))))
           (re_attributes props) (re_children props),
         mkElement (type (re_element props))
           (Some (default "left" (align (re_element props))))
           (children (re_element props)))
    ∧ ((type (re_element props) = "block-quote" ∧ tag = blockquote)
       ∨ (type (re_element props) = "bulleted-list" ∧ tag = ul)
       ∨ (type (re_element props) = "heading-one" ∧ tag = h1)
       ∨ (type (re_element props) = "heading-two" ∧ tag = h2)
       ∨ (type (re_element props) = "list-item" ∧ tag = li)
       ∨ (type (re_element props) = "numbered-list" ∧ tag = ol)
       ∨ ((type (re_element props) ∉ RENDERED_TYPES) ∧ tag = p)).
Proof.
  intros Hok. destruct props as [[ty al ch] frozen attrs kids]. simpl in *.
  assert (∃ tag,
            (if (ty =? "block-quote")%string then blockquote
             else if (ty =? "bulleted-list")%string then ul
             else if (ty =? "heading-one")%string then h1
             else if (ty =? "heading-two")%string then h2
             else if (ty =? "list-item")%string then li
             else if (ty =? "numbered-list")%string then ol
             else p) = tag
            ∧ ((ty = "block-quote" ∧ tag = blockquote)
               ∨ (ty = "bulleted-list" ∧ tag = ul)
               ∨ (ty = "heading-one" ∧ tag = h1)
               ∨ (ty = "heading-two" ∧ tag = h2)
               ∨ (ty = "list-item" ∧ tag = li)
               ∨ (ty = "numbered-list" ∧ tag = ol)
               ∨ ((ty ∉ RENDERED_TYPES) ∧ tag = p))) as (tag & Htag & Hcases).
  { eexists. split; [reflexivity|].
    destruct (String.eqb_spec ty "block-quote"); [tauto|].
    destruct (String.eqb_spec ty "bulleted-list"); [tauto|].
    destruct (String.eqb_spec ty "heading-one"); [tauto|].
    destruct (String.eqb_spec ty "heading-two"); [tauto|].
    destruct (String.eqb_spec ty "list-item"); [tauto|].
    destruct (String.eqb_spec ty "numbered-list"); [tauto|].
    do 6 right. split; [|done].
    unfold RENDERED_TYPES. rewrite !elem_of_cons, elem_of_nil. tauto. }
  exists tag. split; [|done]. unfold Element. simpl.
  destruct al as [a|]; simpl.
  - by rewrite Htag.
  - destruct Hok as [->|[? ?]]; [|done]. simpl. by rewrite Htag.
Qed.

Lemma Element_returned (props : RenderElementProps) tree el :
  Element props = Returned (tree, el) →
  re_frozen props = false ∨ is_Some (align (re_element props)).
Proof.
  intros Hret. destruct (align (re_element props)) as [a|] eqn:Hal;
    [right; by eexists|].
  destruct (re_frozen props) eqn:Hfrozen; [|by left].
  assert (Element props = TypeError) as Hthrow
    by (by apply Element_throws_iff).
  congruence.
Qed.

Lemma recognized_cases (ty : string) :
  ty ∈ RENDERED_TYPES
  ↔ ty = "block-quote" ∨ ty = "bulleted-list" ∨ ty = "heading-one"
    ∨ ty = "heading-two" ∨ ty = "list-item" ∨ ty = "numbered-list".
Proof. unfold RENDERED_TYPES. rewrite !elem_of_cons, elem_of_nil. tauto. Qed.
End RenderFacts.

(** C5 as stated fails on a block without [align] that is a plain object,
    as the paragraph of [initialValue] is: the renderer assigns ["left"] to
    the [align] field of the block it was handed. *)
Lemma Element_assigns_align :
  align (re_element (mkElementProps (Ref.paragraph "x") false [] (Given "x")))
  = None
  ∧ Element (mkElementProps (Ref.paragraph "x") false [] (Given "x"))
    = Returned
        (JSX p (Some (mkStyle (Some "left"))) [] (Given "x"),
         mkElement "paragraph" (Some "left") [DText (mkText "x" ∅)]).
Proof. split; reflexivity. Qed.

(** C5, as amended.  For every block node that has an align or is not
    frozen, rendering produces the container tag and style determined by
    its type and align (two such blocks with the same type and align render
    alike), and leaves the type and the children of the block unchanged; a
    block whose align is set is left unchanged altogether, and a block
    without align has its align set to ["left"]. *)
Theorem Element_frame (props : RenderElementProps) :
  re_frozen props = false ∨ is_Some (align (re_element props)) →
  ∃ tree el,
    Element props = Returned (tree, el)
    ∧ type el = type (re_element props)
    ∧ children el = children (re_element props)
    ∧ align el = Some (default "left" (align (re_element props)))
    ∧ (is_Some (align (re_element props)) → el = re_element props)
    ∧ (∀ props',
         re_frozen props' = false ∨ is_Some (align (re_element props')) →
         type (re_element props') = type (re_element props) →
         align (re_element props') = align (re_element props) →
         re_attributes props' = re_attributes props →
         re_children props' = re_children props →
         ∃ el', Element props' = Returned (tree, el')).
Proof.
  intros Hok. destruct (Element_returns props Hok) as (tag & Hret & Hcases).
  eexists _, _. split; [exact Hret|]. simpl.
  split; [done|]. split; [done|]. split; [done|]. split.
  - intros [a Ha]. rewrite Ha. simpl.
    destruct (re_element props). simpl in *. by subst.
  - intros props' Hok' Hty Hal Hattrs Hkids.
    destruct (Element_returns props' Hok') as (tag' & Hret' & Hcases').
    rewrite Hty, Hal, Hattrs, Hkids in Hret'. rewrite Hty in Hcases'.
    assert (tag' = tag) as ->.
    { destruct Hcases as [[Ht ->]|[[Ht ->]|[[Ht ->]|[[Ht ->]|[[Ht ->]|[[Ht ->]|[Hn ->]]]]]]];
        rewrite ?Ht in Hcases';
        destruct Hcases' as [[? ?]|[[? ?]|[[? ?]|[[? ?]|[[? ?]|[[? ?]|[Hn' ?]]]]]]];
        try done;
        try (destruct Hn'; apply recognized_cases; tauto);
        try (destruct Hn; apply recognized_cases; tauto). }
    by eexists.
Qed.

Lemma Element_frame_witness :
  ∃ tree el,
    Element (mkElementProps (Ref.paragraph "x") false [] (Given "x"))
    = Returned (tree, el)
    ∧ type el = "paragraph"
    ∧ children el = [DText (mkText "x" ∅)]
    ∧ align el = Some "left"
    ∧ (is_Some (align (Ref.paragraph "x")) → el = Ref.paragraph "x")
    ∧ (∀ props',
         re_frozen props' = false ∨ is_Some (align (re_element props')) →
         type (re_element props') = "paragraph" →
         align (re_element props') = None →
         re_attributes props' = [] →
         re_children props' = Given "x" →
         ∃ el', Element props' = Returned (tree, el')).
Proof.
  apply (Element_frame (mkElementProps (Ref.paragraph "x") false [] (Given "x"))).
  by left.
Defined.

(** C9.  The list container [toggleBlock] builds has no align, and the
    engine holds it frozen: rendering it throws, where the claim has it
    rendered with alignment ["left"]. *)
Theorem Element_throws_on_list_container :
  Ref.editor_children (toggleBlock (Ref.at_paragraph "x") "bulleted-list")
  = [ DElement
        (mkElement "bulleted-list" None
           [ DElement (mkElement "list-item" None [DText (mkText "x" ∅)]) ]) ]
  ∧ Element
      (mkElementProps
         (mkElement "bulleted-list" None
            [ DElement (mkElement "list-item" None [DText (mkText "x" ∅)]) ])
         true [] (Given "x"))
    = TypeError.
Proof. split; reflexivity. Qed.

(** * Further properties of the toolbar and the renderers *)

(** X7.  With a selection, pressing a block button whose active flag is
    off prevents the default, and the active flag the button computes on
    the editor the press leaves is on, for every format: an alignment, a
    list or any other type. *)
Theorem BlockButton_press {E : Type} `{Slate E} (e : E) (format icon' : string) :
  nodes_filter E → unwrap_nothing E → unwrapNodes_keeps_selection E →
  setNodes_keeps_selection E → setNodes_visible E → wrapNodes_visible E →
  is_Some (selection e) →
  active (BlockButton format icon' e) = false →
  (onMouseDown (BlockButton format icon' e)).2 = true
  ∧ active (BlockButton format icon' (onMouseDown (BlockButton format icon' e)).1)
    = true.
Proof.
  intros Hfilter Hnothing Hunwrap Hset Hvisible Hwrap Hsel Hoff.
  split; [done|]. simpl in *. by apply toggleBlock_activates.
Qed.

Lemma BlockButton_press_witness :
  ((onMouseDown (BlockButton "block-quote" "format_quote" (Ref.at_paragraph "x"))).2
   = true
   ∧ active (BlockButton "block-quote" "format_quote"
               (onMouseDown (BlockButton "block-quote" "format_quote"
                               (Ref.at_paragraph "x"))).1)
     = true)
  ∧ ((onMouseDown (BlockButton "numbered-list" "format_list_numbered"
                     (Ref.at_paragraph "x"))).2
     = true
     ∧ active (BlockButton "numbered-list" "format_list_numbered"
                 (onMouseDown (BlockButton "numbered-list" "format_list_numbered"
                                 (Ref.at_paragraph "x"))).1)
       = true).
Proof.
  split.
  - apply (BlockButton_press (Ref.at_paragraph "x") "block-quote" "format_quote").
    + exact RefLaws.nodes_filter_ref.
    + exact RefLaws.unwrap_nothing_ref.
    + exact RefLaws.unwrapNodes_keeps_selection_ref.
    + exact RefLaws.setNodes_keeps_selection_ref.
    + exact RefLaws.setNodes_visible_ref.
    + exact RefLaws.wrapNodes_visible_ref.
    + simpl. by eexists.
    + reflexivity.
  - apply (BlockButton_press (Ref.at_paragraph "x") "numbered-list"
             "format_list_numbered").
    + exact RefLaws.nodes_filter_ref.
    + exact RefLaws.unwrap_nothing_ref.
    + exact RefLaws.unwrapNodes_keeps_selection_ref.
    + exact RefLaws.setNodes_keeps_selection_ref.
    + exact RefLaws.setNodes_visible_ref.
    + exact RefLaws.wrapNodes_visible_ref.
    + simpl. by eexists.
    + reflexivity.
Defined.

(** X11.  When rendering a block returns, rendering the block it leaves
    returns again, with the same tree and the block as it is, also when the
    block has been frozen in between. *)
Theorem Element_rerender (props : RenderElementProps) (frozen : bool) tree el :
  Element props = Returned (tree, el) →
  Element (mkElementProps el frozen (re_attributes props) (re_children props))
  = Returned (tree, el).
Proof.
  destruct props as [[ty al ch] fr attrs kids]. unfold Element. simpl.
  destruct al as [a|]; [|destruct fr]; simpl; try discriminate;
    by intros [= <- <-].
Qed.

Lemma Element_rerender_witness :
  Element (mkElementProps (mkElement "paragraph" (Some "left")
                             [DText (mkText "x" ∅)])
             true [] (Given "x"))
  = Returned (JSX p (Some (mkStyle (Some "left"))) [] (Given "x"),
              mkElement "paragraph" (Some "left") [DText (mkText "x" ∅)]).
Proof.
  apply (Element_rerender
           (mkElementProps (Ref.paragraph "x") false [] (Given "x")) true).
  reflexivity.
Defined.

(** X12.  A block whose rendering returns carries a text alignment, its
    own or ["left"], never none.  The paragraph tag is then the tag of
    exactly the types that are not recognized, and two blocks of recognized
    types that render with the same tag have the same type. *)
Theorem Element_tag_faithful (props : RenderElementProps) tree el :
  Element props = Returned (tree, el) →
  rendered_align tree = Some (default "left" (align (re_element props)))
  ∧ (rendered_tag tree = Some p ↔ type (re_element props) ∉ RENDERED_TYPES)
  ∧ (type (re_element props) ∈ RENDERED_TYPES →
     ∀ props' tree' el',
       Element props' = Returned (tree', el') →
       rendered_tag tree' = rendered_tag tree →
       type (re_element props') = type (re_element props)).
Proof.
  intros Hret.
  destruct (Element_returns props (Element_returned props tree el Hret))
    as (tag & Hret' & Hcases).
  rewrite Hret' in Hret. injection Hret as <- <-. simpl.
  split; [done|]. split.
  - rewrite recognized_cases.
    destruct Hcases as [[-> ->]|[[-> ->]|[[-> ->]|[[-> ->]|[[-> ->]|[[-> ->]|[Hn ->]]]]]]];
      try (split; [discriminate | intros Hn; destruct Hn; tauto]).
    split; [|done]. intros _. by rewrite <- recognized_cases.
  - intros Hrec props' tree' el'' Hret2 Htag.
    destruct (Element_returns props' (Element_returned props' tree' el'' Hret2))
      as (tag' & Hret2' & Hcases').
    rewrite Hret2' in Hret2. injection Hret2 as <- <-. simpl in Htag.
    injection Htag as ->.
    destruct Hcases as [[-> Ht]|[[-> Ht]|[[-> Ht]|[[-> Ht]|[[-> Ht]|[[-> Ht]|[Hn Ht]]]]]]];
      try done; rewrite Ht in Hcases';
      destruct Hcases' as [[-> ?]|[[-> ?]|[[-> ?]|[[-> ?]|[[-> ?]|[[-> ?]|[? ?]]]]]]];
      done.
Qed.

Lemma Element_tag_faithful_witness :
  rendered_align (JSX li (Some (mkStyle (Some "right")))
                    [("data-slate-node", "element")] (Given "y"))
  = Some "right"
  ∧ (rendered_tag (JSX li (Some (mkStyle (Some "right")))
                     [("data-slate-node", "element")] (Given "y"))
     = Some p
     ↔ "list-item" ∉ RENDERED_TYPES)
  ∧ ("list-item" ∈ RENDERED_TYPES →
     ∀ props' tree' el',
       Element props' = Returned (tree', el') →
       rendered_tag tree'
       = rendered_tag (JSX li (Some (mkStyle (Some "right")))
                         [("data-slate-node", "element")] (Given "y")) →
       type (re_element props') = "list-item").
Proof.
  apply (Element_tag_faithful
           (mkElementProps (mkElement "list-item" (Some "right") []) true
              [("data-slate-node", "element")] (Given "y"))
           _ (mkElement "list-item" (Some "right") [])).
  reflexivity.
Defined.

(** X14.  A format that is no alignment, no list and no recognized type is
    not refused.  With a selection, turning it on sets it as the type,
    without a container: the format is active afterwards and it is the type
    of every lowest selected block; and a block of this type, when its
    rendering returns, renders as a paragraph. *)
Theorem toggleBlock_unknown_format {E : Type} `{Slate E} (e : E) (format : string) :
  nodes_filter E → unwrapNodes_keeps_selection E →
  setNodes_visible E → setNodes_blocks E →
  format ∉ TEXT_ALIGN_TYPES → format ∉ LIST_TYPES → format ∉ RENDERED_TYPES →
  is_Some (selection e) →
  isBlockActive e format "type" = false →
  toggleBlock e format
  = Transforms_setNodes
      (Transforms_unwrapNodes e (unwrap_match format) true)
      {| p_type := Some format; p_align := None |}
  ∧ isBlockActive (toggleBlock e format) format "type" = true
  ∧ (∀ entry,
       entry ∈ selected_elements (toggleBlock e format) →
       lowest_block (selected_elements (toggleBlock e format)) entry = true →
       type entry.1 = format)
  ∧ ∀ el frozen attributes children' tree el',
      type el = format →
      Element (mkElementProps el frozen attributes children')
      = Returned (tree, el') →
      rendered_tag tree = Some p.
Proof.
  intros Hfilter Hunwrap Hvisible Hblocks Ha Hl Hr Hsel Hoff.
  pose proof (toggleBlock_type_on_eq e format Ha Hl Hoff) as Heq.
  split; [done|]. rewrite Heq. split; [|split].
  - apply setNodes_type_active; [done..|]. by apply Hunwrap.
  - intros entry Hin Hlow.
    destruct (Hblocks _ _ entry (Hunwrap e (unwrap_match format) true Hsel)
                Hin Hlow) as [Hty _].
    by apply Hty.
  - intros el frozen attrs kids tree el' Hty Hret.
    destruct (Element_returns _ (Element_returned _ tree el' Hret))
      as (tag & Hret' & Hcases).
    rewrite Hret' in Hret. injection Hret as <- <-. simpl in *.
    rewrite Hty in Hcases.
    destruct Hcases as [[-> _]|[[-> _]|[[-> _]|[[-> _]|[[-> _]|[[-> _]|[_ ->]]]]]]];
      try done; destruct Hr; unfold RENDERED_TYPES; rewrite !elem_of_cons; tauto.
Qed.

Lemma toggleBlock_unknown_format_witness :
  toggleBlock (Ref.at_paragraph "x") "heading-three"
  = Transforms_setNodes
      (Transforms_unwrapNodes (Ref.at_paragraph "x")
         (unwrap_match "heading-three") true)
      {| p_type := Some "heading-three"; p_align := None |}
  ∧ isBlockActive (toggleBlock (Ref.at_paragraph "x") "heading-three")
      "heading-three" "type" = true
  ∧ (∀ entry,
       entry ∈ selected_elements (toggleBlock (Ref.at_paragraph "x") "heading-three") →
       lowest_block
         (selected_elements (toggleBlock (Ref.at_paragraph "x") "heading-three"))
         entry = true →
       type entry.1 = "heading-three")
  ∧ ∀ el frozen attributes children' tree el',
      type el = "heading-three" →
      Element (mkElementProps el frozen attributes children')
      = Returned (tree, el') →
      rendered_tag tree = Some p.
Proof.
  apply (toggleBlock_unknown_format (Ref.at_paragraph "x") "heading-three").
  - exact RefLaws.nodes_filter_ref.
  - exact RefLaws.unwrapNodes_keeps_selection_ref.
  - exact RefLaws.setNodes_visible_ref.
  - exact RefTree.setNodes_blocks_ref.
  - unfold TEXT_ALIGN_TYPES. rewrite !elem_of_cons, elem_of_nil.
    intros [?|[?|[?|[?|[]]]]]; discriminate.
  - unfold LIST_TYPES. rewrite !elem_of_cons, elem_of_nil.
    intros [?|[?|[]]]; discriminate.
  - unfold RENDERED_TYPES. rewrite !elem_of_cons, elem_of_nil.
    intros [?|[?|[?|[?|[?|[?|[]]]]]]]; discriminate.
  - simpl. by eexists.
  - reflexivity.
Defined.

(** X15.  Rendering changes what [isBlockActive] sees: a block without
    align that is not frozen is not matched for left alignment before it is
    rendered; its rendering returns, and the block it leaves is matched for
    left alignment and for no other. *)
Theorem Element_makes_left_active (props : RenderElementProps) (format : string) :
  align (re_element props) = None →
  re_frozen props = false →
  (negb (Editor_isEditor (NElement (re_element props)))
   && SlateElement_isElement (NElement (re_element props))
   && Node_prop_is (NElement (re_element props)) "align" format) = false
  ∧ ∃ tree el,
      Element props = Returned (tree, el)
      ∧ (negb (Editor_isEditor (NElement el))
         && SlateElement_isElement (NElement el)
         && Node_prop_is (NElement el) "align" format)
        = bool_decide (format = "left").
Proof.
  intros Hal Hfrozen. split.
  - simpl. unfold Element_get. simpl. rewrite Hal.
    by apply bool_decide_eq_false.
  - destruct (Element_returns props (or_introl Hfrozen)) as (tag & Hret & _).
    eexists _, _. split; [exact Hret|]. rewrite Hal. simpl.
    unfold Element_get. simpl.
    apply bool_decide_ext. split; [by intros [= ->] | by intros ->].
Qed.

Lemma Element_makes_left_active_witness :
  (negb (Editor_isEditor (NElement (Ref.paragraph "x")))
   && SlateElement_isElement (NElement (Ref.paragraph "x"))
   && Node_prop_is (NElement (Ref.paragraph "x")) "align" "left") = false
  ∧ ∃ tree el,
      Element (mkElementProps (Ref.paragraph "x") false [] (Given "x"))
      = Returned (tree, el)
      ∧ (negb (Editor_isEditor (NElement el))
         && SlateElement_isElement (NElement el)
         && Node_prop_is (NElement el) "align" "left")
        = bool_decide ("left" = "left").
Proof.
  apply (Element_makes_left_active
           (mkElementProps (Ref.paragraph "x") false [] (Given "x")) "left");
    reflexivity.
Defined.

(** X18.  The marks with a keyboard shortcut are the marks with a toolbar
    button, and the leaf renderer shows each of them with a wrapper of its
    own: every such mark has a tag, different marks have different tags,
    and the tag of a mark is among the wrappers the renderer puts between
    the span and the given children exactly when the mark is [true] on the
    run. *)
Theorem registered_marks_render :
  (∀ mark, mark ∈ HOTKEYS.*2 ↔ ∃ icon', TMark mark icon' ∈ Toolbar)
  ∧ ∃ tag_of : string → Tag,
      (∀ m m', m ∈ HOTKEYS.*2 → m' ∈ HOTKEYS.*2 → tag_of m = tag_of m' → m = m')
      ∧ ∀ props, ∃ added,
          wrappers (Leaf props) = span :: added ++ wrappers (rl_children props)
          ∧ ∀ mark, mark ∈ HOTKEYS.*2 →
                    (tag_of mark ∈ added
                     ↔ leaf_flag (rl_leaf props) mark = true).
Proof.
  split.
  - intros mark. unfold HOTKEYS, Toolbar. simpl. split.
    + intros Hin.
      repeat (apply elem_of_cons in Hin as [->|Hin]);
        try (by apply elem_of_nil in Hin);
        eexists; rewrite !elem_of_cons; tauto.
    + intros [icon' Hin].
      repeat (apply elem_of_cons in Hin as [Heq|Hin]);
        try discriminate Heq; try (by apply elem_of_nil in Hin);
        injection Heq as -> _; rewrite !elem_of_cons; tauto.
  - exists (λ m, if (m =? "bold")%string then strong
                 else if (m =? "code")%string then code
                 else if (m =? "italic")%string then em
                 else u).
    split.
    + intros m m' Hm Hm'. simpl in Hm, Hm'.
      repeat (apply elem_of_cons in Hm as [->|Hm]);
        try (by apply elem_of_nil in Hm);
        repeat (apply elem_of_cons in Hm' as [->|Hm']);
        try (by apply elem_of_nil in Hm');
        simpl; intros Heq; first [reflexivity | discriminate Heq].
    + intros props.
      exists ((if leaf_flag (rl_leaf props) "underline" then [u] else [])
              ++ (if leaf_flag (rl_leaf props) "italic" then [em] else [])
              ++ (if leaf_flag (rl_leaf props) "code"
                  then [CodeBackground; code] else [])
              ++ (if leaf_flag (rl_leaf props) "bold" then [strong] else [])).
      split.
      * unfold Leaf.
        by destruct (leaf_flag _ "bold"), (leaf_flag _ "code"),
             (leaf_flag _ "italic"), (leaf_flag _ "underline").
      * intros mark Hin. simpl in Hin.
        repeat (apply elem_of_cons in Hin as [->|Hin]);
          try (by apply elem_of_nil in Hin);
          destruct (leaf_flag _ "bold"), (leaf_flag _ "code"),
            (leaf_flag _ "italic"), (leaf_flag _ "underline");
          simpl; rewrite ?elem_of_cons, ?elem_of_nil;
          (split; [ intros Hor; first [reflexivity | exfalso; intuition discriminate]
                  | intros Hflag; first [discriminate Hflag | intuition] ]).
Qed.

Lemma registered_marks_render_witness :
  ∃ tag_of : string → Tag,
    tag_of "italic" ≠ tag_of "bold"
    ∧ ∃ added,
        wrappers (Leaf (mkLeafProps (mkText "x" {["italic" := true]}) []
                          (Given "x")))
        = span :: added ++ []
        ∧ (tag_of "italic" ∈ added)
        ∧ (tag_of "bold" ∉ added).
Proof.
  destruct registered_marks_render as (_ & tag_of & Hinj & Hprops).
  exists tag_of. split.
  - intros Heq. apply Hinj in Heq; [discriminate| |];
      simpl; rewrite !elem_of_cons; tauto.
  - destruct (Hprops (mkLeafProps (mkText "x" {["italic" := true]}) []
                        (Given "x"))) as (added & Hwrap & Hmarks).
    exists added. split; [exact Hwrap|]. split.
    + apply Hmarks; [simpl; rewrite !elem_of_cons; tauto | reflexivity].
    + intros Hin. apply Hmarks in Hin; [discriminate|].
      simpl. rewrite !elem_of_cons. tauto.
Defined.
